(** * Turbo Game Sync (scripts/turbo-sync.py): a shallow embedding

    The script enriches rows of a [game] table from the IGDB API:
    [fetch_igdb_batch] asks the API for a batch of ids, [transform_game]
    reshapes one API record into the local schema, [bulk_update_database]
    merges the reshaped records into the table with one SQL [UPDATE], and
    [process_chunk] / [run] drive the three over the eligible rows.

    Python values are modelled by [pyval], dictionaries by [gmap string],
    exceptions by the error monad [result], the table by a list of rows, and
    the casts of the [UPDATE] by [stage]; the database, the API and the clock
    are parameters of the orchestration. *)

From Stdlib Require Import ZArith QArith Qround Lqa String Ascii List Lia.
From stdpp Require Import base option gmap strings list fin_maps.

Set Warnings "-register-all".
Local Open Scope string_scope.
Local Open Scope Z_scope.

(** ** Python values *)

(** A [datetime.date]. *)
Record date := mk_date { year : Z; month : Z; day : Z }.

(** The values the script handles: what [response.json()] can return
    (JSON null, booleans, integers, floats, strings, arrays, objects) and the
    [date] objects the transform builds.  A finite float is represented by the
    rational it denotes.  [json.loads] also reads [NaN], [Infinity] and
    [-Infinity], and a number too large for a double as an infinity: these
    are the floats [PNaN] and [PInfinity]. *)
Inductive pyval :=
| PNone
| PBool (b : bool)
| PInt (z : Z)
| PFloat (q : Q)
| PStr (s : string)
| PDate (d : date)
| PList (l : list pyval)
| PDict (d : gmap string pyval)
| PNaN
| PInfinity (negative : bool).

(** ** Exceptions *)

Inductive exn :=
| KeyError
| IndexError
| TypeError
| AttributeError
| ValueError
| OverflowError
| OSError
| ZeroDivisionError
| ClientError
| DataError.

Inductive result (A : Type) :=
| Ok (a : A)
| Raise (e : exn).
Arguments Ok {A} a.
Arguments Raise {A} e.

#[global] Instance result_ret : MRet result := @Ok.
#[global] Instance result_bind : MBind result :=
  λ A B f m, match m with Ok a => f a | Raise e => Raise e end.
#[global] Instance result_fmap : FMap result :=
  λ A B f m, match m with Ok a => Ok (f a) | Raise e => Raise e end.

Definition is_Ok {A} (m : result A) : bool :=
  match m with Ok _ => true | Raise _ => false end.

(** A [for] loop with a body that may raise: the accumulator is threaded
    from left to right and the first exception ends the loop. *)
Fixpoint for_each {A S} (body : S → A → result S) (l : list A) (s : S) : result S :=
  match l with
  | [] => Ok s
  | x :: l' => s' ← body s x; for_each body l' s'
  end.

(** ** Strings: [str.replace] *)

(** [replace_from old new skip s] copies [s], skipping its first [skip]
    characters, and writes [new] for every occurrence of [old] it meets,
    scanning from the left; occurrences do not overlap.  [old] is not empty. *)
Fixpoint replace_from (old new : string) (skip : nat) (s : string) : string :=
  match s with
  | EmptyString => EmptyString
  | String c s' =>
      match skip with
      | S k => replace_from old new k s'
      | O =>
          if String.prefix old s
          then new +:+ replace_from old new (String.length old - 1)%nat s'
          else String c (replace_from old new 0 s')
      end
  end.

(** With an empty [old], Python writes [new] before every character and at
    the end. *)
Fixpoint replace_empty (new s : string) : string :=
  match s with
  | EmptyString => new
  | String c s' => new +:+ String c (replace_empty new s')
  end.

(** [s.replace(old, new)] *)
Definition str_replace (old new s : string) : string :=
  match old with
  | EmptyString => replace_empty new s
  | String _ _ => replace_from old new 0 s
  end.

(** [old in s] *)
Fixpoint occurs (old s : string) : bool :=
  String.prefix old s ||
  match s with
  | EmptyString => false
  | String _ s' => occurs old s'
  end.

(** [s[n:]] *)
Fixpoint string_drop (n : nat) (s : string) : string :=
  match n, s with
  | O, _ => s
  | S n', String _ s' => string_drop n' s'
  | S _, EmptyString => EmptyString
  end.

(** What [str.replace] does, as a relation between a string and its
    rewriting: a character at which [old] does not start is copied, and an
    occurrence of [old] is replaced by [new] as a whole. *)
Inductive rewritten (old new : string) : string → string → Prop :=
| rw_nil : rewritten old new "" ""
| rw_keep c s s' :
    String.prefix old (String c s) = false →
    rewritten old new s s' → rewritten old new (String c s) (String c s')
| rw_subst s s' :
    rewritten old new s s' → rewritten old new (old +:+ s) (new +:+ s').

(** The character [a] is not in [q]. *)
Fixpoint free_of (a : ascii) (q : string) : bool :=
  match q with
  | EmptyString => true
  | String b q' => negb (Ascii.eqb a b) && free_of a q'
  end.

(** The two replacements the transform applies to an image URL. *)
Definition image_url (u : string) : string :=
  str_replace "t_thumb" "t_1080p"
    (str_replace "//images.igdb.com" "https://images.igdb.com" u).

(** ** Python primitives on dynamic values *)

(** Truth value of an object, as tested by [if], [or] and conditional
    expressions. *)
Definition truthy (v : pyval) : bool :=
  match v with
  | PNone => false
  | PBool b => b
  | PInt z => negb (z =? 0)
  | PFloat q => negb (Qeq_bool q 0)
  | PStr s => negb (String.eqb s "")
  | PDate _ => true
  | PList l => match l with [] => false | _ :: _ => true end
  | PDict d => match map_to_list d with [] => false | _ :: _ => true end
  | PNaN => true
  | PInfinity _ => true
  end.

(** [a or b] *)
Definition py_or (a b : pyval) : pyval := if truthy a then a else b.

(** [d.get(k, dflt)] on a dictionary. *)
Definition dict_get (d : gmap string pyval) (k : string) (dflt : pyval) : pyval :=
  default dflt (d !! k).

(** [d[k]] on a dictionary. *)
Definition dict_item (d : gmap string pyval) (k : string) : result pyval :=
  match d !! k with
  | Some v => Ok v
  | None => Raise KeyError
  end.

(** [v.get(k, dflt)] on any value: only dictionaries have the method. *)
Definition py_get (v : pyval) (k : string) (dflt : pyval) : result pyval :=
  match v with
  | PDict d => Ok (dict_get d k dflt)
  | _ => Raise AttributeError
  end.

(** [v[k]] with a string key on any value. *)
Definition py_item (v : pyval) (k : string) : result pyval :=
  match v with
  | PDict d => dict_item d k
  | _ => Raise TypeError
  end.

(** [v[0]].  The keys of a JSON object are strings, so [0] is never one. *)
Definition py_first (v : pyval) : result pyval :=
  match v with
  | PList (x :: _) => Ok x
  | PList [] => Raise IndexError
  | PStr (String c _) => Ok (PStr (String c EmptyString))
  | PStr EmptyString => Raise IndexError
  | PDict _ => Raise KeyError
  | _ => Raise TypeError
  end.

(** The characters of a string, each as a string of length one. *)
Fixpoint chars (s : string) : list pyval :=
  match s with
  | EmptyString => []
  | String c s' => PStr (String c EmptyString) :: chars s'
  end.

(** The elements [for x in v] visits.  A dictionary yields its keys. *)
Definition py_iter (v : pyval) : result (list pyval) :=
  match v with
  | PList l => Ok l
  | PStr s => Ok (chars s)
  | PDict d => Ok (PStr <$> (map_to_list d).*1)
  | _ => Raise TypeError
  end.

(** [v.replace(old, new)]: a string method ([date.replace] takes integer
    fields and rejects strings). *)
Definition py_replace (v : pyval) (old new : string) : result pyval :=
  match v with
  | PStr s => Ok (PStr (str_replace old new s))
  | PDate _ => Raise TypeError
  | _ => Raise AttributeError
  end.

(** Rounding of a rational to the nearest integer, ties to the even one. *)
Definition round_half_even (q : Q) : Z :=
  let f := Qfloor q in
  match Qcompare (q - inject_Z f) (1 # 2) with
  | Lt => f
  | Gt => f + 1
  | Eq => if Z.even f then f else f + 1
  end.

(** [round(v)]: a float that is not finite has no integer. *)
Definition py_round (v : pyval) : result pyval :=
  match v with
  | PInt z => Ok (PInt z)
  | PBool b => Ok (PInt (if b then 1 else 0))
  | PFloat q => Ok (PInt (round_half_even q))
  | PNaN => Raise ValueError
  | PInfinity _ => Raise OverflowError
  | _ => Raise TypeError
  end.

(** ** Transformer *)

(** The dictionary [transform_game] returns.  The keys of the literal are
    always there; [developer] and [publisher] are added by the loop over the
    involved companies, so they can be missing. *)
Record transformed := mk_transformed {
  tr_igdb_id : pyval;
  tr_summary : pyval;
  tr_release_date : pyval;
  tr_cover_url : pyval;
  tr_platforms : list pyval;
  tr_screenshots : list pyval;
  tr_total_rating : pyval;
  tr_rating_count : pyval;
  tr_metacritic_score : pyval;
  tr_franchise_name : pyval;
  tr_collection_name : pyval;
  tr_alternative_names : list pyval;
  tr_similar_game_ids : pyval;
  tr_dlc_ids : pyval;
  tr_expansion_ids : pyval;
  tr_category : pyval;
  tr_parent_game : pyval;
  tr_developer : option pyval;
  tr_publisher : option pyval
}.

(** [s.replace('//images.igdb.com', 'https://images.igdb.com')
      .replace('t_thumb', 't_1080p')] on a dynamic value. *)
Definition rewrite_url (v : pyval) : result pyval :=
  u ← py_replace v "//images.igdb.com" "https://images.igdb.com";
  py_replace u "t_thumb" "t_1080p".

(** [[x[k] for x in v]] *)
Definition project (k : string) (v : pyval) : result (list pyval) :=
  xs ← py_iter v; mapM (λ x, py_item x k) xs.

(** [company.get('company', {}).get('name')] *)
Definition company_name (company : pyval) : result pyval :=
  c ← py_get company "company" (PDict ∅); py_get c "name" PNone.

(** One turn of the loop over the involved companies; the state is the pair
    of the [developer] and [publisher] entries written so far. *)
Definition company_step (acc : option pyval * option pyval) (company : pyval)
  : result (option pyval * option pyval) :=
  is_dev ← py_get company "developer" PNone;
  acc1 ← (if truthy is_dev
          then n ← company_name company; Ok (Some n, acc.2)
          else Ok acc);
  is_pub ← py_get company "publisher" PNone;
  if truthy is_pub
  then n ← company_name company; Ok (acc1.1, Some n)
  else Ok acc1.

Section Transformer.

(** [datetime.fromtimestamp(ts).date()] for a real number [ts]: the calendar
    date in the time zone of the host, or an exception when the host cannot
    represent the instant.  It belongs to the Python library and to the host's
    configuration. *)
Variable localtime_date : Q → result date.

(** [datetime.fromtimestamp(v).date()] on a dynamic value.  A float that is
    not finite is refused before the host is asked. *)
Definition fromtimestamp_date (v : pyval) : result pyval :=
  match v with
  | PInt z => PDate <$> localtime_date (inject_Z z)
  | PBool b => PDate <$> localtime_date (if b then 1 else 0)%Q
  | PFloat q => PDate <$> localtime_date q
  | PNaN => Raise ValueError
  | PInfinity _ => Raise OverflowError
  | _ => Raise TypeError
  end.

(** The value of each entry of the dictionary literal. *)

Definition release_date_of (igdb_data : gmap string pyval) : result pyval :=
  if truthy (dict_get igdb_data "first_release_date" PNone)
  then ts ← dict_item igdb_data "first_release_date"; fromtimestamp_date ts
  else Ok PNone.

Definition cover_url_of (igdb_data : gmap string pyval) : result pyval :=
  url ← py_get (dict_get igdb_data "cover" (PDict ∅)) "url" (PStr "");
  u ← rewrite_url url;
  Ok (py_or u PNone).

Definition screenshots_of (igdb_data : gmap string pyval) : result (list pyval) :=
  ss ← py_iter (dict_get igdb_data "screenshots" (PList []));
  mapM (λ s, url ← py_item s "url"; rewrite_url url) ss.

(** [igdb_data.get(k, [{}])[0].get('name')] *)
Definition first_name_of (k : string) (igdb_data : gmap string pyval) : result pyval :=
  x ← py_first (dict_get igdb_data k (PList [PDict ∅]));
  py_get x "name" PNone.

Definition companies_of (igdb_data : gmap string pyval)
  : result (option pyval * option pyval) :=
  companies ← py_iter (dict_get igdb_data "involved_companies" (PList []));
  for_each company_step companies (None, None).

(** [transform_game(igdb_data)].  The entries of the literal are evaluated in
    the order they are written, then the loop runs. *)
Definition transform_game (igdb_data : gmap string pyval) : result transformed :=
  igdb_id ← dict_item igdb_data "id";
  let summary := dict_get igdb_data "summary" PNone in
  release_date ← release_date_of igdb_data;
  cover_url ← cover_url_of igdb_data;
  platforms ← project "name" (dict_get igdb_data "platforms" (PList []));
  screenshots ← screenshots_of igdb_data;
  total_rating ← py_round (dict_get igdb_data "total_rating" (PInt 0));
  let rating_count := dict_get igdb_data "total_rating_count" (PInt 0) in
  metacritic_score ← py_round (dict_get igdb_data "aggregated_rating" (PInt 0));
  franchise_name ← first_name_of "franchises" igdb_data;
  collection_name ← first_name_of "collections" igdb_data;
  alternative_names ← project "name" (dict_get igdb_data "alternative_names" (PList []));
  let similar_game_ids := dict_get igdb_data "similar_games" (PList []) in
  let dlc_ids := dict_get igdb_data "dlcs" (PList []) in
  let expansion_ids := dict_get igdb_data "expansions" (PList []) in
  let category := dict_get igdb_data "category" PNone in
  let parent_game := dict_get igdb_data "parent_game" PNone in
  roles ← companies_of igdb_data;
  Ok {| tr_igdb_id := igdb_id;
        tr_summary := summary;
        tr_release_date := release_date;
        tr_cover_url := cover_url;
        tr_platforms := platforms;
        tr_screenshots := screenshots;
        tr_total_rating := total_rating;
        tr_rating_count := rating_count;
        tr_metacritic_score := metacritic_score;
        tr_franchise_name := franchise_name;
        tr_collection_name := collection_name;
        tr_alternative_names := alternative_names;
        tr_similar_game_ids := similar_game_ids;
        tr_dlc_ids := dlc_ids;
        tr_expansion_ids := expansion_ids;
        tr_category := category;
        tr_parent_game := parent_game;
        tr_developer := roles.1;
        tr_publisher := roles.2 |}.

End Transformer.

(** The civil date of a day count from the epoch, in the proleptic Gregorian
    calendar. *)
Definition civil_from_days (days : Z) : date :=
  let z := days + 719468 in
  let era := z / 146097 in
  let doe := z - era * 146097 in
  let yoe := (doe - doe / 1460 + doe / 36524 - doe / 146096) / 365 in
  let doy := doe - (365 * yoe + yoe / 4 - yoe / 100) in
  let mp := (5 * doy + 2) / 153 in
  let d := doy - (153 * mp + 2) / 5 + 1 in
  let m := if mp <? 10 then mp + 3 else mp - 9 in
  let y := yoe + era * 400 + (if m <=? 2 then 1 else 0) in
  mk_date y m d.

(** The whole seconds [fromtimestamp] takes from a timestamp: it rounds to
    microseconds, ties to even, and a time before the epoch has its seconds
    rounded down. *)
Definition timestamp_seconds (ts : Q) : Z :=
  round_half_even (ts * 1000000)%Q / 1000000.

(** A host on UTC, with CPython on 64-bit Linux.  [fromtimestamp] raises
    [OverflowError] when the seconds do not fit the 64 bits of [time_t],
    [OSError] when the C library cannot break them down (its year counter has
    32 bits), and [ValueError] when the year is outside 1..9999 or when the
    instant one day earlier, which it probes for a repeated hour, falls before
    year 1; so the first date it gives is 0001-01-02.  (For the float
    [2.0**63] the conversion to [time_t] is undefined in C; it is given the
    [OverflowError] of the integer.) *)
Definition utc_date (ts : Q) : result date :=
  let s := timestamp_seconds ts in
  if negb ((-9223372036854775808 <=? s) && (s <=? 9223372036854775807))
  then Raise OverflowError
  else if negb ((-67768040609740800 <=? s) && (s <=? 67768036191676799))
  then Raise OSError
  else
    let d := civil_from_days (s / 86400) in
    if (1 <=? year (civil_from_days ((s - 86400) / 86400))) && (year d <=? 9999)
    then Ok d
    else Raise ValueError.

(** The numbers [round] takes: integers, booleans and finite floats. *)
Definition is_number (v : pyval) : bool :=
  match v with PInt _ | PBool _ | PFloat _ => true | _ => false end.

Definition is_dict (v : pyval) : bool :=
  match v with PDict _ => true | _ => false end.

Definition is_str (v : pyval) : bool :=
  match v with PStr _ => true | _ => false end.

Definition has_key (k : string) (v : pyval) : bool :=
  match v with
  | PDict d => match d !! k with Some _ => true | None => false end
  | _ => false
  end.

Definition has_str_key (k : string) (v : pyval) : bool :=
  match v with
  | PDict d => match d !! k with Some (PStr _) => true | _ => false end
  | _ => false
  end.

Definition iter_all (ok : pyval → bool) (v : pyval) : bool :=
  match py_iter v with Ok l => forallb ok l | Raise _ => false end.

Definition starts_with_dict (v : pyval) : bool :=
  match v with PList (PDict _ :: _) => true | _ => false end.

Definition company_ok (company : pyval) : bool :=
  match company with
  | PDict d =>
      if truthy (dict_get d "developer" PNone) || truthy (dict_get d "publisher" PNone)
      then is_dict (dict_get d "company" (PDict ∅))
      else true
  | _ => false
  end.

(** Records on which every step of [transform_game] is defined: the id is
    there, a true release timestamp is a finite number the host can convert,
    the cover is an object with a string url, the elements of the projected
    lists are objects with the projected field, the ratings are finite
    numbers, the franchise and collection lists start with an object, and a
    company with a role flag has an object as its company.  Where the code
    iterates, an empty string or an empty object passes as well as an empty
    list. *)
Definition well_formed (localtime_date : Q → result date)
    (igdb_data : gmap string pyval) : bool :=
  has_key "id" (PDict igdb_data)
  && (let ts := dict_get igdb_data "first_release_date" PNone in
      negb (truthy ts) || is_Ok (fromtimestamp_date localtime_date ts))
  && (match dict_get igdb_data "cover" (PDict ∅) with
      | PDict c => is_str (dict_get c "url" (PStr ""))
      | _ => false
      end)
  && iter_all (has_key "name") (dict_get igdb_data "platforms" (PList []))
  && iter_all (has_str_key "url") (dict_get igdb_data "screenshots" (PList []))
  && is_number (dict_get igdb_data "total_rating" (PInt 0))
  && is_number (dict_get igdb_data "aggregated_rating" (PInt 0))
  && starts_with_dict (dict_get igdb_data "franchises" (PList [PDict ∅]))
  && starts_with_dict (dict_get igdb_data "collections" (PList [PDict ∅]))
  && iter_all (has_key "name") (dict_get igdb_data "alternative_names" (PList []))
  && iter_all company_ok (dict_get igdb_data "involved_companies" (PList [])).

(** Whether [company.get(flag)] is true. *)
Definition flagged (flag : string) (company : pyval) : bool :=
  match py_get company flag PNone with
  | Ok v => truthy v
  | Raise _ => false
  end.

(** ** Writer: the [UPDATE game ... FROM temp_game_updates] statement *)

(** A row of table [game], with the columns the statement reads or writes.
    [None] is SQL's NULL; a [TEXT[]] value is a list of nullable texts. *)
Record game := mk_game {
  g_id : Z;
  g_igdb_id : option Z;
  g_summary : option string;
  g_cover_url : option string;
  g_release_date : option date;
  g_developer : option string;
  g_publisher : option string;
  g_platforms : option (list (option string));
  g_screenshots : option (list (option string));
  g_total_rating : option Z;
  g_rating_count : option Z;
  g_metacritic_score : option Z;
  g_franchise_name : option string;
  g_collection_name : option string;
  g_alternative_names : option (list (option string));
  g_category : option Z;
  g_parent_game : option Z;
  g_last_synced : option Z;
  g_data_source : option string
}.

(** A row of [temp_game_updates] as the statement reads it: the [igdb_id]
    column, and for each key [k] the value of the expression the statement
    builds on [t.data], when the expression has one: [(t.data->>'k')::T] is
    NULL when the key is missing or holds JSON null, and
    [ARRAY(SELECT jsonb_array_elements_text(t.data->'k'))] is the array of
    the elements as nullable texts.  The casts that give these values, and
    raise when there is none, are in [stage] below; an [INTEGER] they give
    fits 32 bits. *)
Record staged := mk_staged {
  s_igdb_id : option Z;
  s_summary : option string;
  s_cover_url : option string;
  s_release_date : option date;
  s_developer : option string;
  s_publisher : option string;
  s_platforms : list (option string);
  s_screenshots : list (option string);
  s_total_rating : option Z;
  s_rating_count : option Z;
  s_metacritic_score : option Z;
  s_franchise_name : option string;
  s_collection_name : option string;
  s_alternative_names : list (option string);
  s_category : option Z;
  s_parent_game : option Z
}.

(** [COALESCE(a, b)] *)
Definition COALESCE {A} (a b : option A) : option A :=
  match a with Some _ => a | None => b end.

(** [GREATEST(a, b)]: NULL arguments are ignored, and the result is NULL
    only when both are. *)
Definition GREATEST (a b : option Z) : option Z :=
  match a, b with
  | Some x, Some y => Some (Z.max x y)
  | Some x, None => Some x
  | None, _ => b
  end.

(** [CASE WHEN array_length(a, 1) > 0 THEN a ELSE NULL END]:
    [array_length] is NULL for a NULL or empty array. *)
Definition nonempty_array {A} (a : option (list A)) : option (list A) :=
  match a with
  | Some (_ :: _) => a
  | _ => None
  end.

(** The [SET] clause on a row [g] of [game] joined with a row [t] of
    [temp_game_updates]; [now] is the value of [NOW()]. *)
Definition set_clause (now : Z) (g : game) (t : staged) : game :=
  {| g_id := g_id g;
     g_igdb_id := g_igdb_id g;
     g_summary := COALESCE (g_summary g) (s_summary t);
     g_cover_url := COALESCE (g_cover_url g) (s_cover_url t);
     g_release_date := COALESCE (g_release_date g) (s_release_date t);
     g_developer := COALESCE (g_developer g) (s_developer t);
     g_publisher := COALESCE (g_publisher g) (s_publisher t);
     g_platforms :=
       COALESCE (nonempty_array (g_platforms g)) (Some (s_platforms t));
     g_screenshots :=
       COALESCE (nonempty_array (g_screenshots g)) (Some (s_screenshots t));
     g_total_rating := COALESCE (g_total_rating g) (s_total_rating t);
     g_rating_count :=
       GREATEST (g_rating_count g) (COALESCE (s_rating_count t) (Some 0));
     g_metacritic_score := s_metacritic_score t;
     g_franchise_name := COALESCE (g_franchise_name g) (s_franchise_name t);
     g_collection_name := COALESCE (g_collection_name g) (s_collection_name t);
     g_alternative_names := Some (s_alternative_names t);
     g_category := COALESCE (g_category g) (s_category t);
     g_parent_game := COALESCE (g_parent_game g) (s_parent_game t);
     g_last_synced := Some now;
     g_data_source := Some "turbo_sync" |}.

(** [WHERE g.igdb_id = t.igdb_id]: true only when both are not NULL. *)
Definition joins (g : game) (t : staged) : bool :=
  match g_igdb_id g, s_igdb_id t with
  | Some a, Some b => a =? b
  | _, _ => false
  end.

(** What the statement may do to one row: a row that joins with staged rows
    is updated from one of them (PostgreSQL does not say which), a row that
    joins with none is left alone. *)
Inductive row_updated (now : Z) (temp : list staged) : game → game → Prop :=
| row_joined g t :
    t ∈ temp → joins g t = true → row_updated now temp g (set_clause now g t)
| row_skipped g :
    (∀ t, t ∈ temp → joins g t = false) → row_updated now temp g g.

(** The statement on the whole table. *)
Definition updated (now : Z) (temp : list staged) : list game → list game → Prop :=
  Forall2 (row_updated now temp).

(** The statement when the first joining staged row is the one used, which
    is one of the choices [updated] leaves open, and the count of updated
    rows it reports. *)
Definition update_row (now : Z) (temp : list staged) (g : game) : game :=
  match List.find (joins g) temp with
  | Some t => set_clause now g t
  | None => g
  end.

Definition update_game (now : Z) (temp : list staged) (tbl : list game) : list game :=
  update_row now temp <$> tbl.

Definition update_count (temp : list staged) (tbl : list game) : nat :=
  length (List.filter (λ g, existsb (joins g) temp) tbl).

(** ** Writer: the casts of the statement *)

(** An [INTEGER] of PostgreSQL has 32 bits. *)
Definition int4 (z : Z) : bool := (-2147483648 <=? z) && (z <=? 2147483647).

(** A row of [temp_game_updates] as [COPY] wrote it: the [igdb_id] column and
    the JSONB document [data], represented by the value it denotes.  A
    document holds no [date], on which [json.dumps] raises, and no float that
    is not finite, which PostgreSQL refuses when the row is copied. *)
Record temp_row := mk_temp_row {
  t_igdb_id : option Z;
  t_data : gmap string pyval
}.

Section Casts.

(** The text PostgreSQL writes for a JSON value that is not a string, and its
    reading of a text as an [INTEGER] and as a [DATE], [None] when it refuses
    the text.  They belong to the server. *)
Variable jsonb_out : pyval → string.
Variable int4in : string → option Z.
Variable date_in : string → option date.

(** [t.data->>'k'], given what the document holds at [k]: NULL for a missing
    key and for JSON null, the string itself for a string, and the text of
    any other value. *)
Definition json_text (v : option pyval) : option string :=
  match v with
  | None => None
  | Some PNone => None
  | Some (PStr s) => Some s
  | Some x => Some (jsonb_out x)
  end.

(** [(t.data->>'k')::INTEGER].  The text of an integer is its decimal
    digits, which the cast reads back when the integer fits 32 bits and
    refuses when it does not; any other text is for the server to read. *)
Definition cast_INTEGER (v : option pyval) : result (option Z) :=
  match v with
  | Some (PInt z) => if int4 z then Ok (Some z) else Raise DataError
  | _ =>
      match json_text v with
      | None => Ok None
      | Some s =>
          match int4in s with
          | Some z => if int4 z then Ok (Some z) else Raise DataError
          | None => Raise DataError
          end
      end
  end.

(** [(t.data->>'k')::DATE] *)
Definition cast_DATE (v : option pyval) : result (option date) :=
  match json_text v with
  | None => Ok None
  | Some s =>
      match date_in s with
      | Some d => Ok (Some d)
      | None => Raise DataError
      end
  end.

(** [ARRAY(SELECT jsonb_array_elements_text(t.data->'k'))]: no element for
    a missing key, the texts of the elements of an array, and an error for
    any other value, JSON null included. *)
Definition elements_text (v : option pyval) : result (list (option string)) :=
  match v with
  | None => Ok []
  | Some (PList l) => Ok ((λ x, json_text (Some x)) <$> l)
  | Some _ => Raise DataError
  end.

(** The expressions of the [SET] clause on a row of the temporary table:
    the staged row, or the error of a cast. *)
Definition stage (row : temp_row) : result staged :=
  let data := t_data row in
  release_date ← cast_DATE (data !! "release_date");
  platforms ← elements_text (data !! "platforms");
  screenshots ← elements_text (data !! "screenshots");
  total_rating ← cast_INTEGER (data !! "total_rating");
  rating_count ← cast_INTEGER (data !! "rating_count");
  metacritic_score ← cast_INTEGER (data !! "metacritic_score");
  alternative_names ← elements_text (data !! "alternative_names");
  category ← cast_INTEGER (data !! "category");
  parent_game ← cast_INTEGER (data !! "parent_game");
  Ok {| s_igdb_id := t_igdb_id row;
        s_summary := json_text (data !! "summary");
        s_cover_url := json_text (data !! "cover_url");
        s_release_date := release_date;
        s_developer := json_text (data !! "developer");
        s_publisher := json_text (data !! "publisher");
        s_platforms := platforms;
        s_screenshots := screenshots;
        s_total_rating := total_rating;
        s_rating_count := rating_count;
        s_metacritic_score := metacritic_score;
        s_franchise_name := json_text (data !! "franchise_name");
        s_collection_name := json_text (data !! "collection_name");
        s_alternative_names := alternative_names;
        s_category := category;
        s_parent_game := parent_game |}.

(** [WHERE g.igdb_id = t.igdb_id] on a row as [COPY] wrote it. *)
Definition joins_row (g : game) (row : temp_row) : bool :=
  match g_igdb_id g, t_igdb_id row with
  | Some a, Some b => a =? b
  | _, _ => false
  end.

(** What the statement may do to one row of [game], casts included: the
    expressions are evaluated on the row joined with a row of the temporary
    table, and a cast that raises makes the statement raise. *)
Inductive row_written (now : Z) (temp : list temp_row) (g : game)
  : result game → Prop :=
| row_written_joined row t :
    row ∈ temp → joins_row g row = true → stage row = Ok t →
    row_written now temp g (Ok (set_clause now g t))
| row_written_raised row e :
    row ∈ temp → joins_row g row = true → stage row = Raise e →
    row_written now temp g (Raise e)
| row_written_skipped :
    (∀ row, row ∈ temp → joins_row g row = false) →
    row_written now temp g (Ok g).

(** The statement on the whole table: the new table, or the error of a
    cast, and then the table is as it was. *)
Inductive written (now : Z) (temp : list temp_row) (tbl : list game)
  : result (list game) → Prop :=
| written_done tbl' :
    Forall2 (λ g g', row_written now temp g (Ok g')) tbl tbl' →
    written now temp tbl (Ok tbl')
| written_raised g e :
    g ∈ tbl → row_written now temp g (Raise e) →
    written now temp tbl (Raise e).

End Casts.

(** ** Batcher *)

(** The tuning constants of the script. *)
Record settings := mk_settings {
  PARALLEL_IGDB_REQUESTS : nat;
  BATCH_SIZE : nat;
  DB_POOL_SIZE : nat;
  CHUNK_SIZE : nat
}.

Definition aggressive_settings : settings :=
  {| PARALLEL_IGDB_REQUESTS := 20;
     BATCH_SIZE := 500;
     DB_POOL_SIZE := 20;
     CHUNK_SIZE := 5000 |}.

(** [range(0, n, step)] for a positive [step]. *)
Definition py_range (n step : nat) : list nat :=
  (λ k, k * step)%nat <$> seq 0 ((n + step - 1) / step)%nat.

(** [[l[j:j+size] for j in range(0, len(l), size)]] *)
Definition slices {A} (size : nat) (l : list A) : list (list A) :=
  (λ j, take size (drop j l)) <$> py_range (length l) size.

(** ** Writer: the records for the temporary table *)

(** The dictionary [transform_game] returns, as a dictionary. *)
Definition to_dict (t : transformed) : gmap string pyval :=
  let literal : gmap string pyval :=
    list_to_map
      [("igdb_id", tr_igdb_id t);
       ("summary", tr_summary t);
       ("release_date", tr_release_date t);
       ("cover_url", tr_cover_url t);
       ("platforms", PList (tr_platforms t));
       ("screenshots", PList (tr_screenshots t));
       ("total_rating", tr_total_rating t);
       ("rating_count", tr_rating_count t);
       ("metacritic_score", tr_metacritic_score t);
       ("franchise_name", tr_franchise_name t);
       ("collection_name", tr_collection_name t);
       ("alternative_names", PList (tr_alternative_names t));
       ("similar_game_ids", tr_similar_game_ids t);
       ("dlc_ids", tr_dlc_ids t);
       ("expansion_ids", tr_expansion_ids t);
       ("category", tr_category t);
       ("parent_game", tr_parent_game t)] in
  let with_developer :=
    match tr_developer t with
    | Some n => <["developer" := n]> literal
    | None => literal
    end in
  match tr_publisher t with
  | Some n => <["publisher" := n]> with_developer
  | None => with_developer
  end.

(** Whether a [date] object sits somewhere in a value. *)
Fixpoint has_date (v : pyval) : bool :=
  match v with
  | PDate _ => true
  | PList l => existsb has_date l
  | PDict d => map_fold (λ _ x found, has_date x || found) false d
  | _ => false
  end.

(** [json.dumps(v)] with the default encoder: a [date] object is not
    serializable and raises [TypeError]; any other value here is written as
    a JSON document, which is represented by the value it denotes. *)
Definition json_dumps (v : pyval) : result pyval :=
  if has_date v then Raise TypeError else Ok v.

(** [[(g['igdb_id'], json.dumps(g)) for g in games]], the records
    [bulk_update_database] builds for the temporary table. *)
Definition copy_records (games : list transformed) : result (list (pyval * pyval)) :=
  mapM (λ g, data ← json_dumps (PDict (to_dict g)); Ok (tr_igdb_id g, data)) games.

(** ** Fetcher and orchestration *)

(** An HTTP response: its status and what [response.json()] gives. *)
Inductive reply := Reply (status : Z) (json : result pyval).

(** The lines the script prints, without the timings: [Complete] stands for
    the two lines that end the sync and give the number of updated games, and
    [Rate] for the last line, with the games per second. *)
Inductive event :=
| Banner
| Found (total : nat)
| IGDB_error (status : Z)
| Progress (processed total updated : nat)
| Complete (updated : nat)
| Rate.

(** The calls of the script on the pool and on a connection of the pool:
    entering and leaving [async with self.db_pool.acquire()], and the
    statements of [bulk_update_database]. *)
Inductive db_call :=
| Acquire
| Release
| Create_temp_table
| Copy_records (records : list (pyval * pyval))
| Update_game_table
| Drop_temp_table.

(** A row of the [SELECT id, game_id, igdb_id, name] in [run]; the query
    keeps the rows whose [igdb_id] is not NULL. *)
Record candidate := mk_candidate {
  c_id : Z;
  c_game_id : pyval;
  c_igdb_id : Z;
  c_name : pyval
}.

(** [self.stats] (less the start time), the console, and the world outside
    the process. *)
Record sync (world : Type) := mk_sync {
  stats_total : nat;
  stats_processed : nat;
  stats_updated : nat;
  stats_failed : nat;
  console : list event;
  env : world
}.
Arguments mk_sync {world}.
Arguments stats_total {world}.
Arguments stats_processed {world}.
Arguments stats_updated {world}.
Arguments stats_failed {world}.
Arguments console {world}.
Arguments env {world}.

(** The result of the list filter [isinstance(result, list)] on one gathered
    result: the records of a list, nothing for an exception or another value. *)
Definition records_of (r : result pyval) : list pyval :=
  match r with
  | Ok (PList l) => l
  | _ => []
  end.

Section Orchestration.

Variable cfg : settings.

(** The database and the remote API. *)
Variable world : Type.

(** [self.session.post(...)] with the query for the given ids: a response,
    or the exception of the transport. *)
Variable post : list Z → world → result reply * world.

(** A call on the pool or on a connection: the count at the end of the
    status the driver returns, which the script reads for the [UPDATE] only,
    or the exception of the driver. *)
Variable database : db_call → world → result nat * world.

(** The [SELECT] of [run] on a connection. *)
Variable fetch_candidates : world → result (list candidate) * world.

Variable localtime_date : Q → result date.

(** [self.stats['start_time']], which [__init__] sets and nothing writes
    again, and [datetime.now()], as seconds. *)
Variable start_time : Q.
Variable now : world → Q.

(** A coroutine of the script: it reads and writes the state and the world,
    and returns or raises. *)
Definition prog (A : Type) : Type := sync world → result A * sync world.

Definition ret {A} (a : A) : prog A := λ σ, (Ok a, σ).

Definition bind {A B} (m : prog A) (k : A → prog B) : prog B :=
  λ σ, match m σ with
       | (Ok a, σ') => k a σ'
       | (Raise e, σ') => (Raise e, σ')
       end.

(** A value computed without the state, which may raise. *)
Definition lift {A} (r : result A) : prog A := λ σ, (r, σ).

Notation "'let*' x ':=' m 'in' k" := (bind m (λ x, k))
  (at level 10, x pattern, m at level 100, k at level 200).
Notation "m ';;' k" := (bind m (λ _, k))
  (at level 100, k at level 200, right associativity).

Definition print (e : event) : prog unit :=
  λ σ, (Ok tt, mk_sync (stats_total σ) (stats_processed σ) (stats_updated σ)
                 (stats_failed σ) (console σ ++ [e]) (env σ)).

(** A call into the world: the state keeps what the world became, also when
    the call raises. *)
Definition call {A} (f : world → result A * world) : prog A :=
  λ σ, let '(r, w) := f (env σ) in
       (r, mk_sync (stats_total σ) (stats_processed σ) (stats_updated σ)
             (stats_failed σ) (console σ) w).

Definition set_total (n : nat) : prog unit :=
  λ σ, (Ok tt, mk_sync n (stats_processed σ) (stats_updated σ)
                 (stats_failed σ) (console σ) (env σ)).

Definition add_processed (n : nat) : prog unit :=
  λ σ, (Ok tt, mk_sync (stats_total σ) (stats_processed σ + n) (stats_updated σ)
                 (stats_failed σ) (console σ) (env σ)).

Definition add_updated (n : nat) : prog unit :=
  λ σ, (Ok tt, mk_sync (stats_total σ) (stats_processed σ) (stats_updated σ + n)
                 (stats_failed σ) (console σ) (env σ)).

Definition get_stats : prog (nat * nat * nat) :=
  λ σ, (Ok (stats_processed σ, stats_total σ, stats_updated σ), σ).

(** [(datetime.now() - self.stats['start_time']).total_seconds()] *)
Definition elapsed_seconds : prog Q :=
  λ σ, (Ok (now (env σ) - start_time)%Q, σ).

(** [async with self.db_pool.acquire() as conn: body].  The connection is
    released when the body returns and when it raises; an exception of the
    release takes the place of the outcome of the body. *)
Definition with_connection {A} (body : prog A) : prog A :=
  call (database Acquire);;
  λ σ, let '(r, σ1) := body σ in
       match call (database Release) σ1 with
       | (Ok _, σ2) => (r, σ2)
       | (Raise e, σ2) => (Raise e, σ2)
       end.

(** [asyncio.gather] with [return_exceptions=True]: every task runs, and
    an exception a task raises becomes its entry in the list of results.  The
    tasks are run one after the other, in the order of the list. *)
Fixpoint gather {A} (tasks : list (prog A)) : prog (list (result A)) :=
  match tasks with
  | [] => ret []
  | task :: tasks' =>
      λ σ, let '(r, σ') := task σ in
           (let* rs := gather tasks' in ret (r :: rs)) σ'
  end.

(** A [for] loop over coroutine calls. *)
Fixpoint for_loop {A} (l : list A) (body : A → prog unit) : prog unit :=
  match l with
  | [] => ret tt
  | x :: l' => body x;; for_loop l' body
  end.

(** [fetch_igdb_batch(igdb_ids)] *)
Definition fetch_igdb_batch (igdb_ids : list Z) : prog pyval :=
  let* response := call (post igdb_ids) in
  match response with
  | Reply status json =>
      if status =? 200
      then lift json
      else print (IGDB_error status);; ret (PList [])
  end.

(** [transform_game(g)] on an element of a fetched list, which the
    function indexes as a dictionary. *)
Definition transform_record (g : pyval) : result transformed :=
  match g with
  | PDict igdb_data => transform_game localtime_date igdb_data
  | _ => Raise TypeError
  end.

(** [bulk_update_database(games)]: the count is added as soon as the
    [UPDATE] has returned, before the temporary table is dropped and the
    connection released. *)
Definition bulk_update_database (games : list transformed) : prog unit :=
  with_connection
    (call (database Create_temp_table);;
     let* records := lift (copy_records games) in
     call (database (Copy_records records));;
     let* updated := call (database Update_game_table) in
     add_updated updated;;
     call (database Drop_temp_table);;
     ret tt).

(** [process_chunk(games)] *)
Definition process_chunk (games : list candidate) : prog unit :=
  let igdb_ids := List.filter (λ i, negb (i =? 0)) (c_igdb_id <$> games) in
  match igdb_ids with
  | [] => ret tt
  | _ :: _ =>
      let batches := slices (BATCH_SIZE cfg) igdb_ids in
      let* results := gather (fetch_igdb_batch <$> batches) in
      let* all_games :=
        lift (mapM transform_record (concat (records_of <$> results))) in
      match all_games with
      | [] => ret tt
      | _ :: _ => bulk_update_database all_games
      end;;
      add_processed (length games)
  end.

(** The sub-batches of a chunk [run] hands to [process_chunk]. *)
Definition dispatched {A} (chunk : list A) : list (list A) :=
  take (PARALLEL_IGDB_REQUESTS cfg) (slices (BATCH_SIZE cfg) chunk).

(** One turn of the loop of [run] over the chunks. *)
Definition cycle (chunk : list candidate) : prog unit :=
  gather (process_chunk <$> dispatched chunk);;
  let* (processed, total, updated) := get_stats in
  print (Progress processed total updated).

(** The rows [run] selects, on a connection of the pool. *)
Definition select_candidates : prog (list candidate) :=
  with_connection (call fetch_candidates).

(** [run()].  The last line divides the total by the elapsed seconds, without
    the guard the progress line has. *)
Definition run : prog unit :=
  print Banner;;
  let* games := select_candidates in
  set_total (length games);;
  print (Found (length games));;
  for_loop (slices (CHUNK_SIZE cfg) games) cycle;;
  let* elapsed := elapsed_seconds in
  let* (_, _, updated) := get_stats in
  print (Complete updated);;
  if Qeq_bool elapsed 0
  then lift (Raise ZeroDivisionError)
  else print Rate.

End Orchestration.

(** ** Concrete inputs *)

(** An involved company with its two role flags. *)
Definition studio (developer publisher : bool) (name : string) : pyval :=
  PDict {[ "developer" := PBool developer;
           "publisher" := PBool publisher;
           "company" := PDict {[ "name" := PStr name ]} ]}.

(** Two companies flagged as developer, the first one also as publisher. *)
Definition two_developers : gmap string pyval :=
  {[ "id" := PInt 7;
     "involved_companies" :=
       PList [studio true true "First Studio";
              studio true false "Second Studio"] ]}.

Definition two_developers_out : transformed :=
  {| tr_igdb_id := PInt 7;
     tr_summary := PNone;
     tr_release_date := PNone;
     tr_cover_url := PNone;
     tr_platforms := [];
     tr_screenshots := [];
     tr_total_rating := PInt 0;
     tr_rating_count := PInt 0;
     tr_metacritic_score := PInt 0;
     tr_franchise_name := PNone;
     tr_collection_name := PNone;
     tr_alternative_names := [];
     tr_similar_game_ids := PList [];
     tr_dlc_ids := PList [];
     tr_expansion_ids := PList [];
     tr_category := PNone;
     tr_parent_game := PNone;
     tr_developer := Some (PStr "Second Studio");
     tr_publisher := Some (PStr "First Studio") |}.

(** A record released at the epoch, and the same record without a release
    timestamp. *)
Definition epoch_game : gmap string pyval :=
  {[ "id" := PInt 3; "name" := PStr "Epoch"; "first_release_date" := PInt 0 ]}.

(** A record with an empty cover URL and an empty screenshot URL. *)
Definition empty_urls : gmap string pyval :=
  {[ "id" := PInt 9;
     "cover" := PDict {[ "url" := PStr "" ]};
     "screenshots" :=
       PList [PDict {[ "url" := PStr "//images.igdb.com/t_thumb/s1.jpg" ]};
              PDict {[ "url" := PStr "" ]}] ]}.

Definition empty_urls_out : transformed :=
  {| tr_igdb_id := PInt 9;
     tr_summary := PNone;
     tr_release_date := PNone;
     tr_cover_url := PNone;
     tr_platforms := [];
     tr_screenshots := [PStr "https://images.igdb.com/t_1080p/s1.jpg"; PStr ""];
     tr_total_rating := PInt 0;
     tr_rating_count := PInt 0;
     tr_metacritic_score := PInt 0;
     tr_franchise_name := PNone;
     tr_collection_name := PNone;
     tr_alternative_names := [];
     tr_similar_game_ids := PList [];
     tr_dlc_ids := PList [];
     tr_expansion_ids := PList [];
     tr_category := PNone;
     tr_parent_game := PNone;
     tr_developer := None;
     tr_publisher := None |}.

(** Records on which the transform raises. *)
Definition nameless_platform : gmap string pyval :=
  {[ "id" := PInt 11; "platforms" := PList [PDict {[ "id" := PInt 6 ]}] ]}.

Definition no_franchise : gmap string pyval :=
  {[ "id" := PInt 12; "franchises" := PList [] ]}.

Definition no_collection : gmap string pyval :=
  {[ "id" := PInt 13; "collections" := PList [] ]}.

Definition urlless_screenshot : gmap string pyval :=
  {[ "id" := PInt 14; "screenshots" := PList [PDict {[ "id" := PInt 1 ]}] ]}.

Definition nameless_alternative : gmap string pyval :=
  {[ "id" := PInt 15; "alternative_names" := PList [PDict {[ "comment" := PStr "jp" ]}] ]}.

(** Records with a rating that is not finite. *)
Definition nan_rating : gmap string pyval :=
  {[ "id" := PInt 16; "total_rating" := PNaN ]}.

Definition infinite_rating : gmap string pyval :=
  {[ "id" := PInt 17; "aggregated_rating" := PInfinity false ]}.

(** A well-formed record with every nested field. *)
Definition full_game : gmap string pyval :=
  {[ "id" := PInt 42;
     "summary" := PStr "A game.";
     "first_release_date" := PInt 951782400;
     "cover" := PDict {[ "url" := PStr "//images.igdb.com/t_thumb/abc.jpg" ]};
     "platforms" := PList [PDict {[ "name" := PStr "PC" ]}];
     "screenshots" := PList [PDict {[ "url" := PStr "//images.igdb.com/t_thumb/s.jpg" ]}];
     "total_rating" := PFloat (175 # 2);
     "total_rating_count" := PInt 25;
     "franchises" := PList [PDict {[ "name" := PStr "Saga" ]}];
     "alternative_names" := PList [PDict {[ "name" := PStr "AG" ]}];
     "involved_companies" := PList [studio true false "Studio"] ]}.

(** A stored row with every fill-if-empty column set, and a staged row that
    joins with it. *)
Definition stored_game : game :=
  {| g_id := 1;
     g_igdb_id := Some 42;
     g_summary := Some "Stored summary.";
     g_cover_url := Some "https://images.igdb.com/t_1080p/old.jpg";
     g_release_date := Some (mk_date 2000 2 29);
     g_developer := Some "Stored Developer";
     g_publisher := Some "Stored Publisher";
     g_platforms := Some [Some "PC"];
     g_screenshots := None;
     g_total_rating := None;
     g_rating_count := Some 10;
     g_metacritic_score := Some 70;
     g_franchise_name := Some "Stored Franchise";
     g_collection_name := Some "Stored Collection";
     g_alternative_names := Some [Some "Old name"; Some "Older name"];
     g_category := Some 0;
     g_parent_game := Some 5;
     g_last_synced := None;
     g_data_source := None |}.

Definition incoming_game : staged :=
  {| s_igdb_id := Some 42;
     s_summary := Some "A game.";
     s_cover_url := Some "https://images.igdb.com/t_1080p/abc.jpg";
     s_release_date := None;
     s_developer := Some "Second Studio";
     s_publisher := Some "First Studio";
     s_platforms := [Some "Switch"];
     s_screenshots := [Some "https://images.igdb.com/t_1080p/s.jpg"];
     s_total_rating := Some 88;
     s_rating_count := Some 25;
     s_metacritic_score := Some 0;
     s_franchise_name := Some "Saga";
     s_collection_name := None;
     s_alternative_names := [Some "AG"];
     s_category := Some 8;
     s_parent_game := Some 6 |}.

(** Small constants, and a chunk of five rows. *)
Definition tiny_settings : settings :=
  {| PARALLEL_IGDB_REQUESTS := 2;
     BATCH_SIZE := 2;
     DB_POOL_SIZE := 20;
     CHUNK_SIZE := 5 |}.

Definition row (i : Z) : candidate :=
  {| c_id := i; c_game_id := PNone; c_igdb_id := 100 + i; c_name := PNone |}.

Definition five_rows : list candidate := row <$> [1; 2; 3; 4; 5].

(** A world that counts the requests, where the API answers every request
    with status 503, and a database whose [UPDATE] reports a given count. *)
Definition api_down (ids : list Z) (w : nat) : result reply * nat :=
  (Ok (Reply 503 (Raise ValueError)), S w).

Definition database_updating (count : nat) (c : db_call) (w : nat)
  : result nat * nat :=
  (Ok (match c with Update_game_table => count | _ => 0%nat end), w).

(** A clock that shows the number of requests made, as seconds. *)
Definition request_clock (w : nat) : Q := inject_Z (Z.of_nat w).

Definition fresh : sync nat :=
  {| stats_total := 5; stats_processed := 0; stats_updated := 0;
     stats_failed := 0; console := [Banner; Found 5]; env := 0%nat |}.

(** ** Further definitions *)

(** The keys of a record [transform_game] reads. *)
Definition transform_keys : list string :=
  ["id"; "summary"; "first_release_date"; "cover"; "platforms"; "screenshots";
   "total_rating"; "total_rating_count"; "aggregated_rating"; "franchises";
   "collections"; "alternative_names"; "similar_games"; "dlcs"; "expansions";
   "category"; "parent_game"; "involved_companies"].

(** A record with a number of ratings, what the transform returns on it, the
    row [COPY] writes for it and, when the number fits an [INTEGER], the
    staged row the statement reads. *)
Definition rated_game (count : Z) : gmap string pyval :=
  {[ "id" := PInt 42; "summary" := PStr "A game.";
     "total_rating_count" := PInt count ]}.

Definition rated_game_out (count : Z) : transformed :=
  {| tr_igdb_id := PInt 42;
     tr_summary := PStr "A game.";
     tr_release_date := PNone;
     tr_cover_url := PNone;
     tr_platforms := [];
     tr_screenshots := [];
     tr_total_rating := PInt 0;
     tr_rating_count := PInt count;
     tr_metacritic_score := PInt 0;
     tr_franchise_name := PNone;
     tr_collection_name := PNone;
     tr_alternative_names := [];
     tr_similar_game_ids := PList [];
     tr_dlc_ids := PList [];
     tr_expansion_ids := PList [];
     tr_category := PNone;
     tr_parent_game := PNone;
     tr_developer := None;
     tr_publisher := None |}.

Definition rated_row (count : Z) : temp_row :=
  {| t_igdb_id := Some 42; t_data := to_dict (rated_game_out count) |}.

Definition rated_staged (count : Z) : staged :=
  {| s_igdb_id := Some 42;
     s_summary := Some "A game.";
     s_cover_url := None;
     s_release_date := None;
     s_developer := None;
     s_publisher := None;
     s_platforms := [];
     s_screenshots := [];
     s_total_rating := Some 0;
     s_rating_count := Some count;
     s_metacritic_score := Some 0;
     s_franchise_name := None;
     s_collection_name := None;
     s_alternative_names := [];
     s_category := None;
     s_parent_game := None |}.

(** The staged rows of the rows [COPY] wrote whose casts all return. *)
Definition staged_rows (jsonb_out : pyval → string) (int4in : string → option Z)
    (date_in : string → option date) (temp : list temp_row) : list staged :=
  omap (λ row, match stage jsonb_out int4in date_in row with
               | Ok t => Some t
               | Raise _ => None
               end) temp.

(** A second staged row for the game 42, with another score. *)
Definition rescored_game : staged :=
  {| s_igdb_id := Some 42;
     s_summary := Some "A game.";
     s_cover_url := Some "https://images.igdb.com/t_1080p/abc.jpg";
     s_release_date := None;
     s_developer := Some "Second Studio";
     s_publisher := Some "First Studio";
     s_platforms := [Some "Switch"];
     s_screenshots := [Some "https://images.igdb.com/t_1080p/s.jpg"];
     s_total_rating := Some 88;
     s_rating_count := Some 25;
     s_metacritic_score := Some 91;
     s_franchise_name := Some "Saga";
     s_collection_name := None;
     s_alternative_names := [Some "AG"];
     s_category := Some 8;
     s_parent_game := Some 6 |}.

(** The [WHERE] clause of the [SELECT] in [run]: the rows that need a sync. *)
Definition needs_sync (g : game) : bool :=
  bool_decide (is_Some (g_igdb_id g)) &&
  (bool_decide (g_cover_url g = None) ||
   bool_decide (g_summary g = None) ||
   bool_decide (g_developer g = None) ||
   bool_decide (g_release_date g = None) ||
   bool_decide (g_last_synced g = None)).

(** [self.stats] as [__init__] sets it, with an empty console. *)
Definition init_sync {world} (w : world) : sync world :=
  {| stats_total := 0; stats_processed := 0; stats_updated := 0;
     stats_failed := 0; console := []; env := w |}.

(** The progress lines of a console. *)
Definition is_progress (e : event) : bool :=
  match e with Progress _ _ _ => true | _ => false end.

(** A record without an id, a record with only an id, and a record whose
    only involved company has no role flag. *)
Definition anonymous_game : gmap string pyval :=
  {[ "summary" := PStr "No id." ]}.

Definition bare_game : gmap string pyval := {[ "id" := PInt 5 ]}.

Definition ported_game : gmap string pyval :=
  {[ "id" := PInt 8;
     "involved_companies" := PList [studio false false "Porting House"] ]}.

(** What the transform returns on [bare_game] and on [full_game]. *)
Definition bare_game_out : transformed :=
  {| tr_igdb_id := PInt 5;
     tr_summary := PNone;
     tr_release_date := PNone;
     tr_cover_url := PNone;
     tr_platforms := [];
     tr_screenshots := [];
     tr_total_rating := PInt 0;
     tr_rating_count := PInt 0;
     tr_metacritic_score := PInt 0;
     tr_franchise_name := PNone;
     tr_collection_name := PNone;
     tr_alternative_names := [];
     tr_similar_game_ids := PList [];
     tr_dlc_ids := PList [];
     tr_expansion_ids := PList [];
     tr_category := PNone;
     tr_parent_game := PNone;
     tr_developer := None;
     tr_publisher := None |}.

Definition full_game_out : transformed :=
  {| tr_igdb_id := PInt 42;
     tr_summary := PStr "A game.";
     tr_release_date := PDate (mk_date 2000 2 29);
     tr_cover_url := PStr "https://images.igdb.com/t_1080p/abc.jpg";
     tr_platforms := [PStr "PC"];
     tr_screenshots := [PStr "https://images.igdb.com/t_1080p/s.jpg"];
     tr_total_rating := PInt 88;
     tr_rating_count := PInt 25;
     tr_metacritic_score := PInt 0;
     tr_franchise_name := PStr "Saga";
     tr_collection_name := PNone;
     tr_alternative_names := [PStr "AG"];
     tr_similar_game_ids := PList [];
     tr_dlc_ids := PList [];
     tr_expansion_ids := PList [];
     tr_category := PNone;
     tr_parent_game := PNone;
     tr_developer := Some (PStr "Studio");
     tr_publisher := None |}.

(** A row that was never synced, and a row without an external id. *)
Definition sparse_game : game :=
  {| g_id := 2;
     g_igdb_id := Some 42;
     g_summary := None;
     g_cover_url := None;
     g_release_date := None;
     g_developer := None;
     g_publisher := None;
     g_platforms := Some [];
     g_screenshots := None;
     g_total_rating := None;
     g_rating_count := None;
     g_metacritic_score := None;
     g_franchise_name := None;
     g_collection_name := None;
     g_alternative_names := None;
     g_category := None;
     g_parent_game := None;
     g_last_synced := None;
     g_data_source := None |}.

Definition local_game : game :=
  {| g_id := 3;
     g_igdb_id := None;
     g_summary := None;
     g_cover_url := None;
     g_release_date := None;
     g_developer := None;
     g_publisher := None;
     g_platforms := None;
     g_screenshots := None;
     g_total_rating := None;
     g_rating_count := None;
     g_metacritic_score := None;
     g_franchise_name := None;
     g_collection_name := None;
     g_alternative_names := None;
     g_category := None;
     g_parent_game := None;
     g_last_synced := None;
     g_data_source := None |}.

(** What a coroutine below the loop over the chunks may do to the state: it
    keeps the total and the failure counter, prints no progress line, and
    counts at most [n] more rows as processed. *)
Definition advances {world} (n : nat) (σ σ' : sync world) : Prop :=
  stats_total σ' = stats_total σ ∧
  stats_failed σ' = stats_failed σ ∧
  (stats_processed σ ≤ stats_processed σ' ≤ stats_processed σ + n)%nat ∧
  List.filter is_progress (console σ') = List.filter is_progress (console σ).

(** The ids [process_chunk] asks for: the ids of the rows that are not 0. *)
Definition requested_ids (games : list candidate) : list Z :=
  List.filter (λ i, negb (i =? 0)) (c_igdb_id <$> games).

(** A world that counts the requests, where the API answers every request
    with the records given; a database that is down, and one that cannot drop
    the temporary table. *)
Definition api_serving (records : list pyval) (ids : list Z) (w : nat)
  : result reply * nat :=
  (Ok (Reply 200 (Ok (PList records))), S w).

Definition database_down (c : db_call) (w : nat) : result nat * nat :=
  (Raise ClientError, w).


Definition select_five_rows (w : nat) : result (list candidate) * nat :=
  (Ok five_rows, w).

Definition select_fails (w : nat) : result (list candidate) * nat :=
  (Raise ClientError, w).

(** A selected row whose external id is 0. *)
Definition unlinked_row : candidate :=
  {| c_id := 9; c_game_id := PNone; c_igdb_id := 0; c_name := PNone |}.

(** ** Configuration: the database host *)

(** [[^.]+] at the start of a string: the longest run of characters other
    than a dot, and what follows it. *)
Fixpoint span_nodot (s : string) : string * string :=
  match s with
  | EmptyString => (EmptyString, EmptyString)
  | String c s' =>
      if Ascii.eqb c "."
      then (EmptyString, s)
      else let (run, rest) := span_nodot s' in (String c run, rest)
  end.

(** The group of a match of [https://([^.]+)\.supabase\.co] at the start of
    a string.  The class takes no dot and [\.] takes only a dot, so the
    group can only be the whole run of characters up to the first dot, which
    must not be empty. *)
Definition match_project (s : string) : option string :=
  if String.prefix "https://" s
  then let (ref, rest) := span_nodot (string_drop 8 s) in
       if negb (String.eqb ref "") && String.prefix ".supabase.co" rest
       then Some ref
       else None
  else None.

(** [re.search(r'https://([^.]+)\.supabase\.co', s)]: the group of the
    match at the first position that has one. *)
Fixpoint search_project (s : string) : option string :=
  match match_project s with
  | Some ref => Some ref
  | None =>
      match s with
      | EmptyString => None
      | String _ s' => search_project s'
      end
  end.

(** [DB_HOST], defined only when the search finds a match. *)
Definition DB_HOST (SUPABASE_URL : string) : option string :=
  (λ ref, ref +:+ ".supabase.co") <$> search_project SUPABASE_URL.

(** * Properties *)

(** ** The error monad *)

Lemma bind_Ok {A B} (m : result A) (k : A → result B) (b : B) :
  m ≫= k = Ok b → ∃ a, m = Ok a ∧ k a = Ok b.
Proof. destruct m as [a|e]; simpl; [eauto | discriminate]. Qed.

Lemma fmap_Ok {A B} (f : A → B) (m : result A) (b : B) :
  f <$> m = Ok b → ∃ a, m = Ok a ∧ b = f a.
Proof. destruct m as [a|e]; simpl; intros H; [injection H as <-; eauto | discriminate]. Qed.

Lemma mapM_cons {A B} (f : A → result B) (x : A) (l : list A) :
  mapM f (x :: l) = y ← f x; k ← mapM f l; mret (y :: k).
Proof. reflexivity. Qed.

(** A comprehension that returns has computed every element, in place. *)
Lemma mapM_Ok_Forall2 {A B} (f : A → result B) (l : list A) (k : list B) :
  mapM f l = Ok k → Forall2 (λ x y, f x = Ok y) l k.
Proof.
  revert k. induction l as [|x l IH]; intros k H.
  - injection H as <-. constructor.
  - rewrite mapM_cons in H.
    apply bind_Ok in H as (y & Hy & H).
    apply bind_Ok in H as (k' & Hk' & H).
    injection H as <-. constructor; auto.
Qed.

Lemma is_Ok_true {A} (m : result A) : is_Ok m = true → ∃ a, m = Ok a.
Proof. destruct m; [eauto | discriminate]. Qed.

Lemma for_each_app {A S} (body : S → A → result S) (l1 l2 : list A) (s : S) :
  for_each body (l1 ++ l2) s = s' ← for_each body l1 s; for_each body l2 s'.
Proof.
  revert s. induction l1 as [|x l1 IH]; intros s; simpl; [reflexivity|].
  destruct (body s x); simpl; auto.
Qed.

(** ** Strings *)

Lemma replace_from_absent (old new s : string) :
  occurs old s = false → replace_from old new 0 s = s.
Proof.
  induction s as [|c s IH]; [reflexivity|].
  intros H. apply orb_false_iff in H as [Hp Hs].
  cbn [replace_from]. rewrite Hp. f_equal. auto.
Qed.

(** A string that does not contain [old] is left as it is. *)
Lemma str_replace_absent (old new s : string) :
  occurs old s = false → str_replace old new s = s.
Proof.
  destruct old as [|a old]; [|apply replace_from_absent].
  destruct s; discriminate.
Qed.

Lemma image_url_absent (u : string) :
  occurs "//images.igdb.com" u = false → occurs "t_thumb" u = false →
  image_url u = u.
Proof.
  intros H1 H2. unfold image_url.
  rewrite (str_replace_absent _ _ u H1). apply str_replace_absent, H2.
Qed.

(** Lengths: a replacement by a longer string makes a string that contains
    the pattern longer, a replacement by a string of the same length keeps
    the length. *)
Section StringLengths.

Local Open Scope nat_scope.

Lemma length_append (s1 s2 : string) :
  String.length (s1 +:+ s2) = String.length s1 + String.length s2.
Proof. induction s1 as [|c s1 IH]; simpl; [done | by rewrite IH]. Qed.

Lemma prefix_length (old s : string) :
  String.prefix old s = true → String.length old ≤ String.length s.
Proof.
  revert old. induction s as [|c s IH]; intros [|a old] H; simpl in *;
    try lia; try discriminate.
  destruct (ascii_dec a c); [|discriminate]. apply IH in H. lia.
Qed.

Lemma replace_from_length_ge (old new : string) :
  0 < String.length old → String.length old ≤ String.length new →
  ∀ s k, k ≤ String.length s →
         String.length s ≤ String.length (replace_from old new k s) + k.
Proof.
  intros Hold Hlen. induction s as [|c s IH]; intros k Hk; [simpl in *; lia|].
  cbn [replace_from]. destruct k as [|k].
  - destruct (String.prefix old (String c s)) eqn:Hp.
    + apply prefix_length in Hp. simpl in Hp.
      rewrite length_append.
      specialize (IH (String.length old - 1)). simpl. lia.
    + specialize (IH 0). simpl. lia.
  - specialize (IH k). simpl in *. lia.
Qed.

Lemma replace_from_length_le (old new : string) :
  String.length new ≤ String.length old →
  ∀ s k, k ≤ String.length s →
         String.length (replace_from old new k s) + k ≤ String.length s.
Proof.
  intros Hlen. induction s as [|c s IH]; intros k Hk; [simpl in *; lia|].
  cbn [replace_from]. destruct k as [|k].
  - destruct (String.prefix old (String c s)) eqn:Hp.
    + apply prefix_length in Hp. simpl in Hp.
      rewrite length_append.
      specialize (IH (String.length old - 1)). simpl. lia.
    + specialize (IH 0). simpl. lia.
  - specialize (IH k). simpl in *. lia.
Qed.

Lemma replace_from_length_lt (old new : string) :
  0 < String.length old → String.length old < String.length new →
  ∀ s, occurs old s = true →
       String.length s < String.length (replace_from old new 0 s).
Proof.
  intros Hold Hlen. induction s as [|c s IH]; intros Hocc.
  - destruct old; simpl in *; [lia | discriminate].
  - cbn [occurs] in Hocc. cbn [replace_from].
    destruct (String.prefix old (String c s)) eqn:Hp.
    + apply prefix_length in Hp. simpl in Hp.
      rewrite length_append.
      pose proof (replace_from_length_ge old new Hold ltac:(lia) s
                    (String.length old - 1) ltac:(lia)).
      simpl. lia.
    + simpl in Hocc. apply IH in Hocc. simpl. lia.
Qed.

End StringLengths.

Lemma image_url_length (u : string) :
  String.length (image_url u)
  = String.length (str_replace "//images.igdb.com" "https://images.igdb.com" u).
Proof.
  unfold image_url.
  set (v := str_replace "//images.igdb.com" "https://images.igdb.com" u).
  change (str_replace "t_thumb" "t_1080p" v)
    with (replace_from "t_thumb" "t_1080p" 0 v).
  pose proof (replace_from_length_ge "t_thumb" "t_1080p"
                ltac:(simpl; lia) ltac:(simpl; lia) v 0%nat ltac:(lia)).
  pose proof (replace_from_length_le "t_thumb" "t_1080p"
                ltac:(simpl; lia) v 0%nat ltac:(lia)).
  lia.
Qed.

Lemma image_url_grows (v : string) :
  occurs "//images.igdb.com" v = true →
  (String.length v < String.length (image_url v))%nat.
Proof.
  intros H. rewrite image_url_length.
  apply (replace_from_length_lt "//images.igdb.com" "https://images.igdb.com");
    [simpl; lia | simpl; lia | exact H].
Qed.

(** [replace_from] computes a rewriting in the sense of [rewritten]. *)
Section Rewritten.

Local Open Scope nat_scope.

Lemma string_drop_length (n : nat) (s : string) :
  String.length (string_drop n s) ≤ String.length s.
Proof.
  revert s. induction n as [|n IH]; intros [|c s]; simpl; try lia.
  specialize (IH s). lia.
Qed.

Lemma replace_from_skip (old new : string) (k : nat) (s : string) :
  replace_from old new k s = replace_from old new 0 (string_drop k s).
Proof.
  revert k. induction s as [|c s IH]; intros [|k]; try reflexivity.
  simpl. apply IH.
Qed.

Lemma prefix_split (old s : string) :
  String.prefix old s = true → s = old +:+ string_drop (String.length old) s.
Proof.
  revert old. induction s as [|c s IH]; intros [|a old] H; simpl in *;
    try done.
  destruct (ascii_dec a c) as [->|]; [|discriminate].
  change (String c s = String c (old +:+ string_drop (String.length old) s)).
  f_equal. by apply IH.
Qed.

Lemma replace_from_rewritten (old new s : string) :
  0 < String.length old → rewritten old new s (replace_from old new 0 s).
Proof.
  intros Hold. remember (String.length s) as n eqn:Hn. revert s Hn.
  induction n as [n IH] using lt_wf_ind. intros [|c s] ->; [constructor|].
  cbn [replace_from]. destruct (String.prefix old (String c s)) eqn:Hp.
  - rewrite replace_from_skip.
    rewrite (prefix_split _ _ Hp) at 1.
    destruct old as [|a old]; [simpl in Hold; lia|].
    cbn [String.length string_drop].
    replace (S (String.length old) - 1) with (String.length old) by lia.
    apply rw_subst. eapply IH; [|reflexivity].
    pose proof (string_drop_length (String.length old) s). simpl. lia.
  - apply rw_keep; [done|]. eapply IH; [|reflexivity]. simpl. lia.
Qed.

End Rewritten.

(** The thumbnail replacement writes [t_1080p], which starts with a [t]: a
    pattern without a [t] starts in the rewriting where it starts in the
    string. *)
Lemma thumb_prefix_free (s s' q : string) :
  rewritten "t_thumb" "t_1080p" s s' →
  free_of "t" q = true →
  String.prefix q s' = String.prefix q s.
Proof.
  intros Hrw. revert q.
  induction Hrw as [|c s s' Hp Hrw IH|s s' Hrw IH]; intros q Hq.
  - done.
  - destruct q as [|a q]; [done|]. cbn [free_of] in Hq.
    apply andb_prop in Hq as [_ Hq]. cbn [String.prefix].
    destruct (ascii_dec a c); [by apply IH | done].
  - destruct q as [|a q]; [done|]. cbn [free_of] in Hq.
    apply andb_prop in Hq as [Ha _].
    change ("t_1080p" +:+ s') with (String "t" ("_1080p" +:+ s')).
    change ("t_thumb" +:+ s) with (String "t" ("_thumb" +:+ s)).
    cbn [String.prefix].
    destruct (ascii_dec a "t") as [->|]; [|done].
    by rewrite Ascii.eqb_refl in Ha.
Qed.

(** So the thumbnail replacement neither adds nor removes an occurrence of
    the host pattern. *)
Lemma thumb_keeps_host (s s' : string) :
  rewritten "t_thumb" "t_1080p" s s' →
  occurs "//images.igdb.com" s' = occurs "//images.igdb.com" s.
Proof.
  intros Hrw.
  induction Hrw as [|c s s' Hp Hrw IH|s s' Hrw IH].
  - done.
  - cbn [occurs]. rewrite IH. f_equal.
    apply thumb_prefix_free; [by constructor | done].
  - cbn -[String.prefix]. cbn. exact IH.
Qed.

(** An end of [t_thumb] that starts in the rewriting starts in the string:
    none of them starts [t_1080p]. *)
Lemma thumb_suffix_prefix (s s' q : string) :
  rewritten "t_thumb" "t_1080p" s s' →
  q ∈ ["_thumb"; "thumb"; "humb"; "umb"; "mb"; "b"; ""] →
  String.prefix q s' = true → String.prefix q s = true.
Proof.
  intros Hrw. revert q.
  induction Hrw as [|c s s' Hp Hrw IH|s s' Hrw IH]; intros q Hq H.
  - done.
  - destruct q as [|a q]; [done|]. simpl in *.
    destruct (ascii_dec a c); [|discriminate]. apply IH; [|done].
    set_unfold. destruct_or!; simplify_eq; auto 10.
  - set_unfold. destruct_or!; subst; first [done | by cbn in H | by cbn].
Qed.

(** After the thumbnail replacement no [t_thumb] is left. *)
Lemma thumb_gone (s s' : string) :
  rewritten "t_thumb" "t_1080p" s s' → occurs "t_thumb" s' = false.
Proof.
  intros Hrw.
  induction Hrw as [|c s s' Hp Hrw IH|s s' Hrw IH].
  - done.
  - cbn [occurs]. rewrite IH, orb_false_r.
    destruct (String.prefix "t_thumb" (String c s')) eqn:Hp'; [|done].
    rewrite <- Hp. cbn [String.prefix] in *.
    destruct (ascii_dec "t" c); [|done].
    symmetry. by apply (thumb_suffix_prefix s s' "_thumb"); [|set_solver|].
  - cbn. exact IH.
Qed.

Lemma prefix_append (p s : string) : String.prefix p (p +:+ s) = true.
Proof.
  induction p as [|a p IH]; [by destruct s|].
  change (String a p +:+ s) with (String a (p +:+ s)). cbn [String.prefix].
  by destruct (ascii_dec a a).
Qed.

Lemma occurs_append_r (p s1 s2 : string) :
  occurs p s2 = true → occurs p (s1 +:+ s2) = true.
Proof.
  intros H. induction s1 as [|a s1 IH]; [done|].
  change (String a s1 +:+ s2) with (String a (s1 +:+ s2)). cbn [occurs].
  rewrite IH. apply orb_true_r.
Qed.

Lemma occurs_append_here (p s1 s2 : string) : occurs p (s1 +:+ p +:+ s2) = true.
Proof.
  apply occurs_append_r.
  destruct (p +:+ s2) eqn:E; cbn [occurs]; rewrite <- E, prefix_append; done.
Qed.

(** The host replacement writes the host pattern again. *)
Lemma host_kept (s : string) :
  occurs "//images.igdb.com" s = true →
  occurs "//images.igdb.com"
    (replace_from "//images.igdb.com" "https://images.igdb.com" 0 s) = true.
Proof.
  induction s as [|c s IH]; [done|]. intros H.
  cbn [replace_from occurs] in *.
  destruct (String.prefix "//images.igdb.com" (String c s)) eqn:Hp.
  - apply (occurs_append_here "//images.igdb.com" "https:").
  - simpl in H. cbn [occurs]. rewrite (IH H). apply orb_true_r.
Qed.

(** C4, as the code has it: the rewriting is a total function on strings,
    and rewriting a rewritten URL again returns it unchanged exactly when the
    URL does not contain [//images.igdb.com]. *)
Theorem image_url_idempotent_iff (u : string) :
  (∃ v, image_url u = v) ∧
  (image_url (image_url u) = image_url u ↔
   occurs "//images.igdb.com" u = false).
Proof.
  split; [eauto|]. split.
  - intros Hid. destruct (occurs "//images.igdb.com" u) eqn:Hocc; [|done].
    exfalso.
    assert (occurs "//images.igdb.com" (image_url u) = true) as Hv.
    { unfold image_url.
      rewrite (thumb_keeps_host
                 (str_replace "//images.igdb.com" "https://images.igdb.com" u)).
      - by apply host_kept.
      - apply replace_from_rewritten. simpl. lia. }
    apply image_url_grows in Hv. rewrite Hid in Hv. lia.
  - intros Hocc.
    assert (rewritten "t_thumb" "t_1080p" u (image_url u)) as Hrw.
    { unfold image_url. rewrite (str_replace_absent _ _ u Hocc).
      apply replace_from_rewritten. simpl. lia. }
    apply image_url_absent.
    + by rewrite (thumb_keeps_host _ _ Hrw).
    + by apply (thumb_gone u).
Qed.

Lemma image_url_idempotent_iff_witness :
  occurs "//images.igdb.com" "https://cdn.example.org/t_thumb/abc.jpg" = false ∧
  image_url (image_url "https://cdn.example.org/t_thumb/abc.jpg")
  = image_url "https://cdn.example.org/t_thumb/abc.jpg".
Proof.
  split; [reflexivity|].
  apply (proj2 (proj2 (image_url_idempotent_iff
                         "https://cdn.example.org/t_thumb/abc.jpg"))).
  reflexivity.
Defined.

(** C4, as stated, fails: the rewritten form of a protocol-relative IGDB URL
    still contains [//images.igdb.com], so rewriting it again changes it. *)
Lemma image_url_not_idempotent :
  image_url "//images.igdb.com/t_thumb/abc.jpg"
    = "https://images.igdb.com/t_1080p/abc.jpg" ∧
  image_url (image_url "//images.igdb.com/t_thumb/abc.jpg")
    = "https:https://images.igdb.com/t_1080p/abc.jpg" ∧
  image_url (image_url "//images.igdb.com/t_thumb/abc.jpg")
    ≠ image_url "//images.igdb.com/t_thumb/abc.jpg".
Proof.
  split; [reflexivity|]. split; [reflexivity|]. discriminate.
Qed.

(** ** Transformer *)

Section TransformerFacts.

Variable localtime_date : Q → result date.

(** What a returned dictionary holds: each entry is the value of its
    expression. *)
Lemma transform_game_Ok (igdb_data : gmap string pyval) (t : transformed) :
  transform_game localtime_date igdb_data = Ok t →
  dict_item igdb_data "id" = Ok (tr_igdb_id t) ∧
  release_date_of localtime_date igdb_data = Ok (tr_release_date t) ∧
  cover_url_of igdb_data = Ok (tr_cover_url t) ∧
  screenshots_of igdb_data = Ok (tr_screenshots t) ∧
  tr_rating_count t = dict_get igdb_data "total_rating_count" (PInt 0) ∧
  companies_of igdb_data = Ok (tr_developer t, tr_publisher t).
Proof.
  unfold transform_game. intros H.
  repeat (apply bind_Ok in H as (? & ? & H)).
  injection H as <-. simpl.
  repeat split; try assumption.
  match goal with H : companies_of _ = Ok ?p |- _ => destruct p; exact H end.
Qed.

(** *** Developer and publisher *)

Lemma flagged_true (flag : string) (company : pyval) :
  flagged flag company = true →
  ∃ v, py_get company flag PNone = Ok v ∧ truthy v = true.
Proof. unfold flagged. destruct (py_get company flag PNone); [eauto | discriminate]. Qed.

Lemma company_step_developer acc company acc' :
  company_step acc company = Ok acc' →
  if flagged "developer" company
  then ∃ n, company_name company = Ok n ∧ acc'.1 = Some n
  else acc'.1 = acc.1.
Proof.
  unfold company_step, flagged. intros H.
  apply bind_Ok in H as (d & Hd & H). rewrite Hd.
  apply bind_Ok in H as (acc1 & H1 & H).
  apply bind_Ok in H as (p & Hp & H).
  assert (acc'.1 = acc1.1) as ->.
  { destruct (truthy p); [|by injection H as <-].
    apply bind_Ok in H as (n & _ & H). by injection H as <-. }
  destruct (truthy d); [|by injection H1 as <-].
  apply bind_Ok in H1 as (n & Hn & H1). injection H1 as <-. eauto.
Qed.

Lemma company_step_publisher acc company acc' :
  company_step acc company = Ok acc' →
  if flagged "publisher" company
  then ∃ n, company_name company = Ok n ∧ acc'.2 = Some n
  else acc'.2 = acc.2.
Proof.
  unfold company_step, flagged. intros H.
  apply bind_Ok in H as (d & Hd & H).
  apply bind_Ok in H as (acc1 & H1 & H).
  apply bind_Ok in H as (p & Hp & H). rewrite Hp.
  assert (acc1.2 = acc.2) as <-.
  { destruct (truthy d); [|by injection H1 as <-].
    apply bind_Ok in H1 as (n & _ & H1). by injection H1 as <-. }
  destruct (truthy p); [|by injection H as <-].
  apply bind_Ok in H as (n & Hn & H). injection H as <-. eauto.
Qed.

(** Companies without the flag leave the entry as it was. *)
Lemma for_each_unflagged_developer (l : list pyval) acc acc' :
  Forall (λ x, flagged "developer" x = false) l →
  for_each company_step l acc = Ok acc' → acc'.1 = acc.1.
Proof.
  intros Hl. revert acc. induction Hl as [|x l Hx _ IH]; intros acc H.
  - by injection H as <-.
  - simpl in H. apply bind_Ok in H as (acc1 & H1 & H).
    apply company_step_developer in H1. rewrite Hx in H1.
    rewrite (IH _ H). exact H1.
Qed.

Lemma for_each_unflagged_publisher (l : list pyval) acc acc' :
  Forall (λ x, flagged "publisher" x = false) l →
  for_each company_step l acc = Ok acc' → acc'.2 = acc.2.
Proof.
  intros Hl. revert acc. induction Hl as [|x l Hx _ IH]; intros acc H.
  - by injection H as <-.
  - simpl in H. apply bind_Ok in H as (acc1 & H1 & H).
    apply company_step_publisher in H1. rewrite Hx in H1.
    rewrite (IH _ H). exact H1.
Qed.

(** The loop ends with the name of the last flagged company. *)
Lemma for_each_last_developer (pre post : list pyval) (c : pyval) acc acc' :
  flagged "developer" c = true →
  Forall (λ x, flagged "developer" x = false) post →
  for_each company_step (pre ++ c :: post) acc = Ok acc' →
  ∃ n, company_name c = Ok n ∧ acc'.1 = Some n.
Proof.
  intros Hc Hpost H. rewrite for_each_app in H.
  apply bind_Ok in H as (acc0 & _ & H). simpl in H.
  apply bind_Ok in H as (acc1 & H1 & H).
  apply company_step_developer in H1. rewrite Hc in H1.
  destruct H1 as (n & Hn & H1). exists n. split; [done|].
  by rewrite (for_each_unflagged_developer _ _ _ Hpost H).
Qed.

Lemma for_each_last_publisher (pre post : list pyval) (c : pyval) acc acc' :
  flagged "publisher" c = true →
  Forall (λ x, flagged "publisher" x = false) post →
  for_each company_step (pre ++ c :: post) acc = Ok acc' →
  ∃ n, company_name c = Ok n ∧ acc'.2 = Some n.
Proof.
  intros Hc Hpost H. rewrite for_each_app in H.
  apply bind_Ok in H as (acc0 & _ & H). simpl in H.
  apply bind_Ok in H as (acc1 & H1 & H).
  apply company_step_publisher in H1. rewrite Hc in H1.
  destruct H1 as (n & Hn & H1). exists n. split; [done|].
  by rewrite (for_each_unflagged_publisher _ _ _ Hpost H).
Qed.

(** C2, as the code has it: the loop assigns on every flagged company, so
    the developer of the returned dictionary is the company name of the LAST
    entry flagged as developer, whatever flagged entries come before it; the
    same holds for the publisher flag. *)
Theorem last_flagged_company_wins
    (igdb_data : gmap string pyval) (t : transformed)
    (pre post : list pyval) (c : pyval) :
  igdb_data !! "involved_companies" = Some (PList (pre ++ c :: post)) →
  transform_game localtime_date igdb_data = Ok t →
  (flagged "developer" c = true →
   Forall (λ x, flagged "developer" x = false) post →
   ∃ n, company_name c = Ok n ∧ tr_developer t = Some n) ∧
  (flagged "publisher" c = true →
   Forall (λ x, flagged "publisher" x = false) post →
   ∃ n, company_name c = Ok n ∧ tr_publisher t = Some n).
Proof.
  intros Hr Ht. apply transform_game_Ok in Ht as (_ & _ & _ & _ & _ & Hc).
  unfold companies_of, dict_get in Hc. rewrite Hr in Hc. simpl in Hc.
  split; intros Hflag Hpost.
  - by destruct (for_each_last_developer _ _ _ _ _ Hflag Hpost Hc) as (n & ? & ?); eauto.
  - by destruct (for_each_last_publisher _ _ _ _ _ Hflag Hpost Hc) as (n & ? & ?); eauto.
Qed.

(** *** Release date *)

Lemma dict_get_delete_ne (d : gmap string pyval) (k k' : string) (dflt : pyval) :
  k ≠ k' → dict_get (delete k d) k' dflt = dict_get d k' dflt.
Proof. intros. unfold dict_get. by rewrite lookup_delete_ne. Qed.

Lemma dict_item_delete_ne (d : gmap string pyval) (k k' : string) :
  k ≠ k' → dict_item (delete k d) k' = dict_item d k'.
Proof. intros. unfold dict_item. by rewrite lookup_delete_ne. Qed.

(** C10: a release timestamp equal to 0 is false in the test of the
    conditional expression, so the release date is [None]; the whole result
    is the one of the same record without the timestamp. *)
Theorem epoch_release_date_is_absent (igdb_data : gmap string pyval) :
  igdb_data !! "first_release_date" = Some (PInt 0) →
  release_date_of localtime_date igdb_data = Ok PNone ∧
  transform_game localtime_date igdb_data
    = transform_game localtime_date (delete "first_release_date" igdb_data) ∧
  (∀ t, transform_game localtime_date igdb_data = Ok t → tr_release_date t = PNone).
Proof.
  intros H0.
  assert (release_date_of localtime_date igdb_data = Ok PNone) as Hrel.
  { unfold release_date_of, dict_get. by rewrite H0. }
  split; [exact Hrel|]. split.
  - unfold transform_game. rewrite Hrel.
    assert (release_date_of localtime_date (delete "first_release_date" igdb_data)
            = Ok PNone) as ->.
    { unfold release_date_of, dict_get. by rewrite lookup_delete_eq. }
    unfold cover_url_of, screenshots_of, first_name_of, companies_of.
    rewrite !dict_get_delete_ne by done.
    by rewrite dict_item_delete_ne by done.
  - intros t Ht. apply transform_game_Ok in Ht as (_ & Ht & _).
    rewrite Hrel in Ht. by injection Ht.
Qed.

(** *** Image URLs *)

(** On a string the transform applies [image_url]. *)
Lemma rewrite_url_PStr (u : string) : rewrite_url (PStr u) = Ok (PStr (image_url u)).
Proof. reflexivity. Qed.

Lemma Forall2_lookup_Ok {A B} (f : A → result B) (l : list A) (k : list B) i x :
  Forall2 (λ x y, f x = Ok y) l k → l !! i = Some x →
  ∃ y, f x = Ok y ∧ k !! i = Some y.
Proof.
  intros HF Hx. destruct (Forall2_lookup_l _ _ _ _ _ HF Hx) as (y & ? & ?). eauto.
Qed.

(** C9, as the code has it: an empty cover URL gives [None] for the cover;
    an empty screenshot URL stays in the list of screenshots as the empty
    string, at its position. *)
Theorem empty_image_url (igdb_data : gmap string pyval) :
  (∀ c, igdb_data !! "cover" = Some (PDict c) → c !! "url" = Some (PStr "") →
     cover_url_of igdb_data = Ok PNone ∧
     ∀ t, transform_game localtime_date igdb_data = Ok t → tr_cover_url t = PNone) ∧
  (∀ ss i s, igdb_data !! "screenshots" = Some (PList ss) →
     ss !! i = Some (PDict s) → s !! "url" = Some (PStr "") →
     ∀ t, transform_game localtime_date igdb_data = Ok t →
          tr_screenshots t !! i = Some (PStr "")).
Proof.
  split.
  - intros c Hc Hu.
    assert (cover_url_of igdb_data = Ok PNone) as Hcov.
    { unfold cover_url_of, dict_get. rewrite Hc. simpl.
      unfold dict_get. by rewrite Hu. }
    split; [exact Hcov|]. intros t Ht.
    apply transform_game_Ok in Ht as (_ & _ & Ht & _).
    rewrite Hcov in Ht. by injection Ht.
  - intros ss i s Hss Hi Hu t Ht.
    apply transform_game_Ok in Ht as (_ & _ & _ & Ht & _).
    unfold screenshots_of, dict_get in Ht. rewrite Hss in Ht. simpl in Ht.
    apply mapM_Ok_Forall2 in Ht.
    destruct (Forall2_lookup_Ok _ _ _ _ _ Ht Hi) as (y & Hy & ->).
    simpl in Hy. unfold dict_item in Hy. rewrite Hu in Hy. simpl in Hy.
    by injection Hy as <-.
Qed.

(** *** Totality *)

Lemma dict_get_insert_ne (d : gmap string pyval) (k k' : string) (v dflt : pyval) :
  k ≠ k' → dict_get (<[k:=v]> d) k' dflt = dict_get d k' dflt.
Proof. intros. unfold dict_get. by rewrite lookup_insert_ne. Qed.

Lemma dict_item_insert_ne (d : gmap string pyval) (k k' : string) (v : pyval) :
  k ≠ k' → dict_item (<[k:=v]> d) k' = dict_item d k'.
Proof. intros. unfold dict_item. by rewrite lookup_insert_ne. Qed.

Lemma is_Ok_bind {A B} (m : result A) (k : A → result B) :
  is_Ok (m ≫= k) = match m with Ok a => is_Ok (k a) | Raise _ => false end.
Proof. by destruct m. Qed.

(** A comprehension returns when its element expression returns on every
    element. *)
Lemma mapM_is_Ok {A B} (f : A → result B) (l : list A) :
  is_Ok (mapM f l) = forallb (λ x, is_Ok (f x)) l.
Proof.
  induction l as [|x l IH]; [done|].
  rewrite mapM_cons. simpl. destruct (f x); [|done]. simpl.
  rewrite <- IH. by destruct (mapM f l).
Qed.

Lemma forallb_ext_all {A} (f g : A → bool) (l : list A) :
  (∀ x, f x = g x) → forallb f l = forallb g l.
Proof. intros H. induction l as [|x l IH]; [done|]. simpl. by rewrite H, IH. Qed.

Lemma py_item_is_Ok (k : string) (x : pyval) : is_Ok (py_item x k) = has_key k x.
Proof.
  destruct x as [| | | | | | |d| |]; try done. simpl. unfold dict_item.
  by destruct (d !! k).
Qed.

Lemma project_is_Ok (k : string) (v : pyval) :
  is_Ok (project k v) = iter_all (has_key k) v.
Proof.
  unfold project, iter_all. rewrite is_Ok_bind.
  destruct (py_iter v) as [l|]; [|done].
  rewrite mapM_is_Ok. apply forallb_ext_all, py_item_is_Ok.
Qed.

Lemma rewrite_url_is_Ok (v : pyval) : is_Ok (rewrite_url v) = is_str v.
Proof. by destruct v. Qed.

Lemma screenshots_is_Ok (igdb_data : gmap string pyval) :
  is_Ok (screenshots_of igdb_data)
  = iter_all (has_str_key "url") (dict_get igdb_data "screenshots" (PList [])).
Proof.
  unfold screenshots_of, iter_all. rewrite is_Ok_bind.
  destruct (py_iter _) as [l|]; [|done].
  rewrite mapM_is_Ok. apply forallb_ext_all. intros x.
  destruct x as [| | | | | | |d| |]; try done. simpl. unfold dict_item.
  destruct (d !! "url") as [[]|]; done.
Qed.

Lemma first_name_is_Ok (k : string) (igdb_data : gmap string pyval) :
  is_Ok (first_name_of k igdb_data)
  = starts_with_dict (dict_get igdb_data k (PList [PDict ∅])).
Proof.
  unfold first_name_of.
  destruct (dict_get igdb_data k (PList [PDict ∅])) as [| | | |[|]| |[|[] l]| | |];
    done.
Qed.

Lemma py_round_is_Ok (v : pyval) : is_Ok (py_round v) = is_number v.
Proof. by destruct v. Qed.

Lemma company_step_is_Ok acc (company : pyval) :
  is_Ok (company_step acc company) = company_ok company.
Proof.
  destruct company as [| | | | | | |d| |]; try done.
  unfold company_ok, company_step, company_name. simpl.
  destruct (dict_get d "company" (PDict ∅)); simpl;
    destruct (truthy (dict_get d "developer" PNone)),
             (truthy (dict_get d "publisher" PNone)); done.
Qed.

Lemma for_each_company_is_Ok (l : list pyval) acc :
  is_Ok (for_each company_step l acc) = forallb company_ok l.
Proof.
  revert acc. induction l as [|x l IH]; intros acc; [done|].
  simpl. rewrite <- (company_step_is_Ok acc x).
  destruct (company_step acc x); [|done]. simpl. apply IH.
Qed.

Lemma companies_is_Ok (igdb_data : gmap string pyval) :
  is_Ok (companies_of igdb_data)
  = iter_all company_ok (dict_get igdb_data "involved_companies" (PList [])).
Proof.
  unfold companies_of, iter_all. rewrite is_Ok_bind.
  destruct (py_iter _) as [l|]; [|done]. apply for_each_company_is_Ok.
Qed.

Lemma release_date_is_Ok (igdb_data : gmap string pyval) :
  is_Ok (release_date_of localtime_date igdb_data)
  = (let ts := dict_get igdb_data "first_release_date" PNone in
     negb (truthy ts) || is_Ok (fromtimestamp_date localtime_date ts)).
Proof.
  unfold release_date_of, dict_get, dict_item. simpl.
  destruct (igdb_data !! "first_release_date") as [ts|]; simpl; [|done].
  destruct (truthy ts); simpl; done.
Qed.

Lemma cover_url_is_Ok (igdb_data : gmap string pyval) :
  is_Ok (cover_url_of igdb_data)
  = match dict_get igdb_data "cover" (PDict ∅) with
    | PDict c => is_str (dict_get c "url" (PStr ""))
    | _ => false
    end.
Proof.
  unfold cover_url_of.
  destruct (dict_get igdb_data "cover" (PDict ∅)) as [| | | | | | |c| |];
    try done. simpl.
  by destruct (dict_get c "url" (PStr "")).
Qed.

(** The well-formed records are the domain of the transform. *)
Lemma transform_game_is_Ok (igdb_data : gmap string pyval) :
  is_Ok (transform_game localtime_date igdb_data)
  = well_formed localtime_date igdb_data.
Proof.
  unfold well_formed.
  rewrite <- release_date_is_Ok, <- cover_url_is_Ok, <- !project_is_Ok,
    <- screenshots_is_Ok, <- !py_round_is_Ok, <- !first_name_is_Ok,
    <- companies_is_Ok.
  unfold transform_game, has_key, dict_item.
  destruct (igdb_data !! "id"); [|done]. simpl.
  destruct (release_date_of _ _); [|done]. simpl.
  destruct (cover_url_of _); [|done]. simpl.
  destruct (project "name" (dict_get igdb_data "platforms" _)); [|done]. simpl.
  destruct (screenshots_of _); [|done]. simpl.
  destruct (py_round (dict_get igdb_data "total_rating" _)); [|done]. simpl.
  destruct (py_round (dict_get igdb_data "aggregated_rating" _)); [|done]. simpl.
  destruct (first_name_of "franchises" _); [|done]. simpl.
  destruct (first_name_of "collections" _); [|done]. simpl.
  destruct (project "name" (dict_get igdb_data "alternative_names" _)); [|done].
  simpl.
  destruct (companies_of _); done.
Qed.

(** A list of objects one of which lacks the projected field: the
    comprehension raises [KeyError] at the first of them. *)
Lemma project_lacking (k : string) (l : list pyval) :
  Forall (λ x, is_dict x = true) l →
  Exists (λ x, has_key k x = false) l →
  project k (PList l) = Raise KeyError.
Proof.
  unfold project. cbn [py_iter mbind result_bind].
  intros Hdict Hlack. induction Hdict as [|x l Hx _ IH].
  - by apply Exists_nil in Hlack.
  - rewrite mapM_cons. destruct x as [| | | | | | |d| |]; try discriminate.
    cbn [py_item has_key] in *. unfold dict_item.
    apply Exists_cons in Hlack as [Hlack|Hlack].
    + cbn [has_key] in Hlack. by destruct (d !! k).
    + destruct (d !! k); [|done]. cbn [mbind result_bind]. by rewrite (IH Hlack).
Qed.

Lemma screenshots_lacking (l : list pyval) :
  Forall (λ x, is_dict x = true ∧
               (has_key "url" x = true → has_str_key "url" x = true)) l →
  Exists (λ x, has_key "url" x = false) l →
  mapM (λ s, url ← py_item s "url"; rewrite_url url) l = Raise KeyError.
Proof.
  intros Hdict Hlack. induction Hdict as [|x l [Hx Hstr] _ IH].
  - by apply Exists_nil in Hlack.
  - rewrite mapM_cons. destruct x as [| | | | | | |d| |]; try discriminate.
    cbn [py_item has_key has_str_key] in *. unfold dict_item.
    apply Exists_cons in Hlack as [Hlack|Hlack].
    + cbn [has_key] in Hlack. by destruct (d !! "url").
    + destruct (d !! "url") as [url|]; [|done].
      specialize (Hstr eq_refl). destruct url; try discriminate.
      cbn [mbind result_bind rewrite_url py_replace]. by rewrite (IH Hlack).
Qed.

(** One step of the dictionary literal: it returned on the other record, so
    it returns here. *)
Ltac literal_step H :=
  match type of H with
  | is_Ok (?m ≫= _) = true =>
      destruct m; [cbn [mbind result_bind] in H |- *|discriminate H]
  end.

Ltac other_record H :=
  unfold transform_game, release_date_of, cover_url_of, screenshots_of,
    first_name_of, companies_of in H |- *;
  repeat match type of H with
    | context [dict_get (<[?k:=?v]> ?d) ?k' ?dflt] =>
        rewrite (dict_get_insert_ne d k k' v dflt) in H by done
    | context [dict_item (<[?k:=?v]> ?d) ?k'] =>
        rewrite (dict_item_insert_ne d k k' v) in H by done
    end.

(** A record that returns with an empty list of platforms, of screenshots
    or of alternative names raises what the comprehension over its own list
    raises. *)
Lemma transform_game_platforms (igdb_data : gmap string pyval) (e : exn) :
  is_Ok (transform_game localtime_date (<["platforms" := PList []]> igdb_data)) = true →
  project "name" (dict_get igdb_data "platforms" (PList [])) = Raise e →
  transform_game localtime_date igdb_data = Raise e.
Proof.
  intros H He. other_record H. do 3 literal_step H. by rewrite He.
Qed.

Lemma transform_game_screenshots (igdb_data : gmap string pyval) (e : exn) :
  is_Ok (transform_game localtime_date (<["screenshots" := PList []]> igdb_data)) = true →
  screenshots_of igdb_data = Raise e →
  transform_game localtime_date igdb_data = Raise e.
Proof.
  intros H He. unfold screenshots_of in He.
  other_record H. do 4 literal_step H. by rewrite He.
Qed.

Lemma transform_game_alternative_names (igdb_data : gmap string pyval) (e : exn) :
  is_Ok (transform_game localtime_date
           (<["alternative_names" := PList []]> igdb_data)) = true →
  project "name" (dict_get igdb_data "alternative_names" (PList [])) = Raise e →
  transform_game localtime_date igdb_data = Raise e.
Proof.
  intros H He. other_record H. do 9 literal_step H. by rewrite He.
Qed.

(** C5, as the code has it: the transform is a function, and it returns a
    dictionary, without raising, for every well-formed record.  In a record
    that is well-formed but for its list of platforms, of screenshots or of
    alternative names, where that list holds objects (for the screenshots:
    with a string as url when they have one) one of which lacks the projected
    field, the transform raises [KeyError]. *)
Theorem transform_game_total_on_well_formed (igdb_data : gmap string pyval) :
  (well_formed localtime_date igdb_data = true →
   ∃ t, transform_game localtime_date igdb_data = Ok t) ∧
  (∀ k field l,
     (k, field) ∈ [("platforms", "name"); ("screenshots", "url");
                   ("alternative_names", "name")] →
     well_formed localtime_date (<[k := PList []]> igdb_data) = true →
     igdb_data !! k = Some (PList l) →
     Forall (λ x, is_dict x = true ∧
                  (k = "screenshots" → has_key field x = true →
                   has_str_key field x = true)) l →
     Exists (λ x, has_key field x = false) l →
     transform_game localtime_date igdb_data = Raise KeyError).
Proof.
  split; [rewrite <- transform_game_is_Ok; apply is_Ok_true|].
  intros k field l Hk Hwf Hl Hdict Hlack.
  rewrite <- transform_game_is_Ok in Hwf.
  assert (dict_get igdb_data k (PList []) = PList l) as Hget
    by (unfold dict_get; by rewrite Hl).
  rewrite !elem_of_cons, elem_of_nil in Hk.
  destruct Hk as [[= -> ->]|[[= -> ->]|[[= -> ->]|[]]]].
  - apply (transform_game_platforms _ _ Hwf). rewrite Hget.
    apply project_lacking; [|done]. eapply Forall_impl; [exact Hdict|].
    by intros x [? _].
  - apply (transform_game_screenshots _ _ Hwf). unfold screenshots_of.
    rewrite Hget. cbn [py_iter mbind result_bind].
    apply screenshots_lacking; [|done]. eapply Forall_impl; [exact Hdict|].
    intros x [? Hstr]. split; [done|]. by apply Hstr.
  - apply (transform_game_alternative_names _ _ Hwf). rewrite Hget.
    apply project_lacking; [|done]. eapply Forall_impl; [exact Hdict|].
    by intros x [? _].
Qed.

End TransformerFacts.

(** *** Concrete records *)

Example transform_two_developers :
  transform_game utc_date two_developers = Ok two_developers_out.
Proof. vm_compute. reflexivity. Qed.

(** C2, as stated, fails: with two entries flagged as developer the
    transform keeps the name of the second, not of the first. *)
Lemma first_developer_overwritten :
  ∃ t, transform_game utc_date two_developers = Ok t ∧
       company_name (studio true true "First Studio")
         = Ok (PStr "First Studio") ∧
       flagged "developer" (studio true true "First Studio") = true ∧
       flagged "developer" (studio true false "Second Studio") = true ∧
       tr_developer t = Some (PStr "Second Studio") ∧
       tr_developer t ≠ Some (PStr "First Studio").
Proof.
  exists two_developers_out. split; [apply transform_two_developers|].
  split; [vm_compute; reflexivity|].
  split; [vm_compute; reflexivity|].
  split; [vm_compute; reflexivity|].
  split; [reflexivity | discriminate].
Qed.

Lemma last_flagged_company_wins_witness :
  (∃ n, company_name (studio true false "Second Studio") = Ok n ∧
        tr_developer two_developers_out = Some n).
Proof.
  refine (proj1 (last_flagged_company_wins utc_date two_developers two_developers_out
                   [studio true true "First Studio"] []
                   (studio true false "Second Studio") _ _) _ _).
  - vm_compute. reflexivity.
  - vm_compute. reflexivity.
  - vm_compute. reflexivity.
  - constructor.
Defined.

Lemma epoch_release_date_is_absent_witness :
  transform_game utc_date epoch_game
  = transform_game utc_date (delete "first_release_date" epoch_game) ∧
  ∃ t, transform_game utc_date epoch_game = Ok t ∧ tr_release_date t = PNone.
Proof.
  destruct (epoch_release_date_is_absent utc_date epoch_game) as (_ & Heq & Hnone).
  - vm_compute. reflexivity.
  - split; [exact Heq|].
    destruct (transform_game utc_date epoch_game) as [t|e] eqn:Ht.
    + exists t. split; [reflexivity | apply Hnone; reflexivity].
    + vm_compute in Ht. discriminate.
Defined.

Example transform_empty_urls :
  transform_game utc_date empty_urls = Ok empty_urls_out.
Proof. vm_compute. reflexivity. Qed.

(** C9, as stated, fails for screenshots: the empty URL of a screenshot is
    neither dropped from the list nor turned into [None]; it stays there as
    the empty string. *)
Lemma empty_screenshot_url_kept :
  ∃ t, transform_game utc_date empty_urls = Ok t ∧
       tr_cover_url t = PNone ∧
       tr_screenshots t !! 1%nat = Some (PStr "") ∧
       tr_screenshots t !! 1%nat ≠ Some PNone ∧
       length (tr_screenshots t) = 2%nat.
Proof.
  exists empty_urls_out. split; [apply transform_empty_urls|].
  repeat split. discriminate.
Qed.

Lemma empty_image_url_witness :
  tr_cover_url empty_urls_out = PNone ∧
  tr_screenshots empty_urls_out !! 1%nat = Some (PStr "").
Proof.
  destruct (empty_image_url utc_date empty_urls) as [Hcover Hshots]. split.
  - refine (proj2 (Hcover {[ "url" := PStr "" ]} _ _) _ transform_empty_urls);
      vm_compute; reflexivity.
  - refine (Hshots _ 1%nat {[ "url" := PStr "" ]} _ _ _ _ transform_empty_urls);
      vm_compute; reflexivity.
Defined.

(** C5, as stated, fails: an element of a projected list without the
    projected field raises [KeyError], and an empty list of franchises or
    collections raises [IndexError]. *)
Lemma transform_game_raises :
  transform_game utc_date nameless_platform = Raise KeyError ∧
  transform_game utc_date urlless_screenshot = Raise KeyError ∧
  transform_game utc_date nameless_alternative = Raise KeyError ∧
  transform_game utc_date no_franchise = Raise IndexError ∧
  transform_game utc_date no_collection = Raise IndexError.
Proof. repeat split; vm_compute; reflexivity. Qed.

(** A rating that is not finite has no rounding. *)
Example transform_game_not_finite :
  transform_game utc_date nan_rating = Raise ValueError ∧
  transform_game utc_date infinite_rating = Raise OverflowError ∧
  well_formed utc_date nan_rating = false ∧
  well_formed utc_date infinite_rating = false.
Proof. repeat split; vm_compute; reflexivity. Qed.

(** The dates of the host on UTC at the ends of its range. *)
Example utc_date_range :
  utc_date 951782400 = Ok (mk_date 2000 2 29) ∧
  utc_date (-62135510400) = Ok (mk_date 1 1 2) ∧
  utc_date (-62135510401) = Raise ValueError ∧
  utc_date (-62135596800) = Raise ValueError ∧
  utc_date 253402300799 = Ok (mk_date 9999 12 31) ∧
  utc_date 253402300800 = Raise ValueError ∧
  utc_date 67768036191676799 = Raise ValueError ∧
  utc_date 67768036191676800 = Raise OSError ∧
  utc_date (-67768040609740801) = Raise OSError ∧
  utc_date 9223372036854775807 = Raise OSError ∧
  utc_date 9223372036854775808 = Raise OverflowError ∧
  utc_date (-9223372036854775809) = Raise OverflowError ∧
  utc_date (8639999999999 # 100000000) = Ok (mk_date 1970 1 2) ∧
  utc_date (-6 # 10000000) = Ok (mk_date 1969 12 31) ∧
  utc_date (-5 # 10000000) = Ok (mk_date 1970 1 1).
Proof. repeat split; vm_compute; reflexivity. Qed.

Example transform_full_game :
  ∃ t, transform_game utc_date full_game = Ok t ∧
       tr_release_date t = PDate (mk_date 2000 2 29) ∧
       tr_cover_url t = PStr "https://images.igdb.com/t_1080p/abc.jpg" ∧
       tr_platforms t = [PStr "PC"] ∧
       tr_total_rating t = PInt 88 ∧
       tr_rating_count t = PInt 25 ∧
       tr_franchise_name t = PStr "Saga" ∧
       tr_collection_name t = PNone ∧
       tr_developer t = Some (PStr "Studio") ∧
       tr_publisher t = None.
Proof. eexists. split; [vm_compute; reflexivity|]. repeat split. Qed.

Lemma transform_game_total_on_well_formed_witness :
  (well_formed utc_date full_game = true ∧
   ∃ t, transform_game utc_date full_game = Ok t) ∧
  transform_game utc_date nameless_platform = Raise KeyError ∧
  transform_game utc_date urlless_screenshot = Raise KeyError.
Proof.
  assert (well_formed utc_date full_game = true) as H by (vm_compute; reflexivity).
  split; [split; [exact H|]|split].
  - exact (proj1 (transform_game_total_on_well_formed utc_date full_game) H).
  - refine (proj2 (transform_game_total_on_well_formed utc_date nameless_platform)
              "platforms" "name" [PDict {[ "id" := PInt 6 ]}] _ _ _ _ _).
    + apply list_elem_of_here.
    + vm_compute. reflexivity.
    + vm_compute. reflexivity.
    + repeat constructor. discriminate.
    + apply Exists_cons_hd. vm_compute. reflexivity.
  - refine (proj2 (transform_game_total_on_well_formed utc_date urlless_screenshot)
              "screenshots" "url" [PDict {[ "id" := PInt 1 ]}] _ _ _ _ _).
    + apply list_elem_of_further, list_elem_of_here.
    + vm_compute. reflexivity.
    + vm_compute. reflexivity.
    + repeat constructor. intros _ Hkey. vm_compute in Hkey. discriminate.
    + apply Exists_cons_hd. vm_compute. reflexivity.
Defined.

(** ** Writer *)

Lemma COALESCE_Some {A} (a b : option A) : is_Some a → COALESCE a b = a.
Proof. by intros [x ->]. Qed.

Lemma COALESCE_None {A} (b : option A) : COALESCE None b = b.
Proof. reflexivity. Qed.

(** C1: a column written through [COALESCE(g.col, ...)] keeps a value that
    is not NULL, hence every non-empty one, whatever the staged row holds:
    summary, cover URL, release date, developer, publisher, franchise name,
    collection name, category and parent game. *)
Theorem fill_if_empty_keeps_existing (now : Z) (g : game) (t : staged) :
  (is_Some (g_summary g) → g_summary (set_clause now g t) = g_summary g) ∧
  (is_Some (g_cover_url g) → g_cover_url (set_clause now g t) = g_cover_url g) ∧
  (is_Some (g_release_date g) →
     g_release_date (set_clause now g t) = g_release_date g) ∧
  (is_Some (g_developer g) → g_developer (set_clause now g t) = g_developer g) ∧
  (is_Some (g_publisher g) → g_publisher (set_clause now g t) = g_publisher g) ∧
  (is_Some (g_franchise_name g) →
     g_franchise_name (set_clause now g t) = g_franchise_name g) ∧
  (is_Some (g_collection_name g) →
     g_collection_name (set_clause now g t) = g_collection_name g) ∧
  (is_Some (g_category g) → g_category (set_clause now g t) = g_category g) ∧
  (is_Some (g_parent_game g) →
     g_parent_game (set_clause now g t) = g_parent_game g).
Proof. repeat split; intros H; simpl; by apply COALESCE_Some. Qed.

(** The same on the table, whichever staged row the statement picks for a
    row of [game]. *)
Lemma updated_keeps_summary (now : Z) (temp : list staged) (tbl tbl' : list game) :
  updated now temp tbl tbl' →
  Forall2 (λ g g', is_Some (g_summary g) → g_summary g' = g_summary g) tbl tbl'.
Proof.
  intros H. eapply Forall2_impl; [exact H|].
  intros g g' Hr Hs. destruct Hr; [|done].
  simpl. by apply COALESCE_Some.
Qed.

(** An empty column is filled from the staged row. *)
Lemma fill_if_empty_fills (now : Z) (g : game) (t : staged) :
  g_summary g = None → g_summary (set_clause now g t) = s_summary t.
Proof. intros H. simpl. by rewrite H. Qed.

Section CastFacts.

Variable jsonb_out : pyval → string.
Variable int4in : string → option Z.
Variable date_in : string → option date.

(** An integer the cast gives fits 32 bits, and the only error of a cast is
    a data error. *)
Lemma cast_INTEGER_int4 (v : option pyval) (z : Z) :
  cast_INTEGER jsonb_out int4in v = Ok (Some z) → int4 z = true.
Proof. unfold cast_INTEGER. repeat case_match; congruence. Qed.

Lemma cast_INTEGER_raises (v : option pyval) (e : exn) :
  cast_INTEGER jsonb_out int4in v = Raise e → e = DataError.
Proof. unfold cast_INTEGER. repeat case_match; congruence. Qed.

Lemma cast_DATE_raises (v : option pyval) (e : exn) :
  cast_DATE jsonb_out date_in v = Raise e → e = DataError.
Proof. unfold cast_DATE. repeat case_match; congruence. Qed.

Lemma elements_text_raises (v : option pyval) (e : exn) :
  elements_text jsonb_out v = Raise e → e = DataError.
Proof. unfold elements_text. repeat case_match; congruence. Qed.

Ltac stage_step H :=
  match type of H with
  | (?m ≫= _) = _ =>
      let E := fresh "E" in destruct m eqn:E; cbn [mbind result_bind] in H
  end.

Lemma stage_raises (row : temp_row) (e : exn) :
  stage jsonb_out int4in date_in row = Raise e → e = DataError.
Proof.
  unfold stage. intros H. repeat stage_step H; try discriminate;
    injection H as <-;
    eauto using cast_INTEGER_raises, cast_DATE_raises, elements_text_raises.
Qed.

(** What a staged row holds: the id of the copied row and the casts of its
    document. *)
Lemma stage_Ok (row : temp_row) (t : staged) :
  stage jsonb_out int4in date_in row = Ok t →
  s_igdb_id t = t_igdb_id row ∧
  cast_INTEGER jsonb_out int4in (t_data row !! "total_rating") = Ok (s_total_rating t) ∧
  cast_INTEGER jsonb_out int4in (t_data row !! "rating_count") = Ok (s_rating_count t) ∧
  cast_INTEGER jsonb_out int4in (t_data row !! "metacritic_score")
  = Ok (s_metacritic_score t) ∧
  cast_INTEGER jsonb_out int4in (t_data row !! "category") = Ok (s_category t) ∧
  cast_INTEGER jsonb_out int4in (t_data row !! "parent_game") = Ok (s_parent_game t).
Proof.
  unfold stage. intros H. repeat stage_step H; try discriminate.
  injection H as <-. done.
Qed.

(** The integers of a staged row fit 32 bits. *)
Lemma stage_int4 (row : temp_row) (t : staged) (z : Z) :
  stage jsonb_out int4in date_in row = Ok t →
  Some z ∈ [s_total_rating t; s_rating_count t; s_metacritic_score t;
            s_category t; s_parent_game t] →
  int4 z = true.
Proof.
  intros (_ & H1 & H2 & H3 & H4 & H5)%stage_Ok.
  rewrite !elem_of_cons, elem_of_nil.
  intros [E|[E|[E|[E|[E|[]]]]]]; rewrite <- E in *;
    eauto using cast_INTEGER_int4.
Qed.

Lemma joins_stage (g : game) (row : temp_row) (t : staged) :
  stage jsonb_out int4in date_in row = Ok t → joins g t = joins_row g row.
Proof. intros (Hid & _)%stage_Ok. unfold joins, joins_row. by rewrite Hid. Qed.

(** With the casts, the statement is the statement on the staged rows. *)
Lemma written_updated (now : Z) (temp : list temp_row) (tbl tbl' : list game) :
  written jsonb_out int4in date_in now temp tbl (Ok tbl') →
  updated now (staged_rows jsonb_out int4in date_in temp) tbl tbl'.
Proof.
  inversion 1 as [? Hall|]; subst. eapply Forall2_impl; [exact Hall|].
  intros g g' Hr. inversion Hr as [row t Hin Hj Hs| |Hno]; subst.
  - apply row_joined; [|by rewrite (joins_stage _ _ _ Hs)].
    unfold staged_rows. apply list_elem_of_omap. exists row. by rewrite Hs.
  - apply row_skipped. intros t Ht. unfold staged_rows in Ht.
    apply list_elem_of_omap in Ht as (row & Hin & Hs).
    destruct (stage jsonb_out int4in date_in row) as [t'|] eqn:E; [|done].
    injection Hs as ->. rewrite (joins_stage _ _ _ E). by apply Hno.
Qed.

(** C3: when the casts of the joined row return, the stored rating count is
    not below the one the row had, and it is the greater of that one and the
    incoming count, which then fits the 32 bits of an [INTEGER]; a missing
    or null incoming count counts as 0.  An incoming count that does not fit
    makes the cast raise, and the statement with it. *)
Theorem rating_count_is_max (now : Z) (g : game) (row : temp_row) (before : Z) :
  g_rating_count g = Some before →
  (∀ t, stage jsonb_out int4in date_in row = Ok t →
     ∃ after, g_rating_count (set_clause now g t) = Some after ∧
              before ≤ after ∧
              (∀ incoming,
                 t_data row !! "rating_count" = Some (PInt incoming) →
                 int4 incoming = true ∧ after = Z.max before incoming) ∧
              (t_data row !! "rating_count" = None ∨
               t_data row !! "rating_count" = Some PNone →
               after = Z.max before 0)) ∧
  (∀ incoming,
     t_data row !! "rating_count" = Some (PInt incoming) →
     int4 incoming = false →
     stage jsonb_out int4in date_in row = Raise DataError).
Proof.
  intros Hg. split.
  - intros t (_ & _ & Hrc & _)%stage_Ok. simpl. rewrite Hg.
    destruct (s_rating_count t) as [count|]; simpl;
      (eexists; split; [reflexivity|]; split; [lia|]); split.
    + intros incoming Hd. rewrite Hd in Hrc. cbn [cast_INTEGER] in Hrc.
      destruct (int4 incoming); [|discriminate]. by injection Hrc as ->.
    + intros [Hd|Hd]; rewrite Hd in Hrc; discriminate.
    + intros incoming Hd. rewrite Hd in Hrc. cbn [cast_INTEGER] in Hrc.
      destruct (int4 incoming); discriminate.
    + done.
  - intros incoming Hd Hi.
    destruct (stage jsonb_out int4in date_in row) as [t|e] eqn:E.
    + apply stage_Ok in E as (_ & _ & Hrc & _). rewrite Hd in Hrc.
      cbn [cast_INTEGER] in Hrc. rewrite Hi in Hrc. discriminate.
    + f_equal. by eapply stage_raises.
Qed.

(** A row that joins only rows whose casts raise is not written: the
    statement raises. *)
Lemma row_written_raises (now : Z) (temp : list temp_row) (g : game)
    (r : result game) :
  (∃ row, row ∈ temp ∧ joins_row g row = true) →
  (∀ row, row ∈ temp → joins_row g row = true →
          stage jsonb_out int4in date_in row = Raise DataError) →
  row_written jsonb_out int4in date_in now temp g r → r = Raise DataError.
Proof.
  intros (row0 & Hin0 & Hj0) Hbad Hr.
  inversion Hr as [row t Hin Hj Hs|row e Hin Hj Hs|Hno]; subst.
  - rewrite (Hbad row Hin Hj) in Hs. discriminate.
  - rewrite (Hbad row Hin Hj) in Hs. by injection Hs as <-.
  - rewrite (Hno row0 Hin0) in Hj0. discriminate.
Qed.

End CastFacts.

(** A staged row without a rating count counts as 0, and a row of [game]
    without one takes the staged count. *)
Lemma rating_count_defaults (now : Z) (g : game) (t : staged) :
  g_rating_count (set_clause now g t)
  = Some (match g_rating_count g with
          | Some before => Z.max before (default 0 (s_rating_count t))
          | None => default 0 (s_rating_count t)
          end).
Proof. simpl. by destruct (g_rating_count g), (s_rating_count t). Qed.

(** The statement never lowers a rating count of the table. *)
Lemma updated_rating_count_monotone (now : Z) (temp : list staged)
    (tbl tbl' : list game) :
  updated now temp tbl tbl' →
  Forall2 (λ g g', ∀ before, g_rating_count g = Some before →
                   ∃ after, g_rating_count g' = Some after ∧ before ≤ after)
          tbl tbl'.
Proof.
  intros H. eapply Forall2_impl; [exact H|].
  intros g g' Hr before Hb. destruct Hr.
  - rewrite rating_count_defaults, Hb. eexists. split; [reflexivity | lia].
  - exists before. split; [done | lia].
Qed.


(** The sibling list columns keep a stored list that is not empty. *)
Lemma platforms_kept_when_nonempty (now : Z) (g : game) (t : staged) x l :
  g_platforms g = Some (x :: l) →
  g_platforms (set_clause now g t) = Some (x :: l).
Proof. intros H. simpl. by rewrite H. Qed.

(** Using the first joining staged row is one way to run the statement, and
    the count it reports is the number of rows that join. *)
Lemma update_row_updated (now : Z) (temp : list staged) (g : game) :
  row_updated now temp g (update_row now temp g).
Proof.
  unfold update_row. destruct (List.find (joins g) temp) as [t|] eqn:Hf.
  - apply find_some in Hf as [Hin Hj]. constructor; [|done].
    by apply list_elem_of_In.
  - apply row_skipped. intros t Ht%list_elem_of_In.
    by apply (find_none _ _ Hf).
Qed.

Lemma update_game_updated (now : Z) (temp : list staged) (tbl : list game) :
  updated now temp tbl (update_game now temp tbl).
Proof.
  unfold updated, update_game. induction tbl; constructor; auto.
  apply update_row_updated.
Qed.

(** ** Batcher *)

Section BatcherFacts.

Local Open Scope nat_scope.

Lemma div_up_step (n size : nat) :
  0 < size → 0 < n →
  (n + size - 1) / size = S ((n - size + size - 1) / size).
Proof.
  intros Hs Hn.
  replace (n + size - 1) with ((n - 1) + 1 * size) by lia.
  rewrite Nat.div_add by lia.
  destruct (decide (size ≤ n)) as [Hle|Hgt].
  - replace (n - size + size - 1) with (n - 1) by lia. lia.
  - replace (n - size + size - 1) with (size - 1) by lia.
    rewrite !Nat.div_small by lia. lia.
Qed.

Lemma slices_nil {A} (size : nat) : 0 < size → slices size (@nil A) = [].
Proof.
  intros Hs. unfold slices, py_range. simpl.
  by rewrite Nat.div_small by lia.
Qed.

(** The first slice is the first [size] elements, and the others are the
    slices of the rest. *)
Lemma slices_cons {A} (size : nat) (l : list A) :
  0 < size → l ≠ [] →
  slices size l = take size l :: slices size (drop size l).
Proof.
  intros Hs Hl. unfold slices, py_range.
  assert (0 < length l) by (destruct l; [done | simpl; lia]).
  rewrite div_up_step by done. rewrite length_drop.
  cbn [seq fmap list_fmap]. f_equal.
  rewrite <- fmap_S_seq, <- !list_fmap_compose.
  apply list_fmap_ext. intros _ k _. simpl.
  by rewrite drop_drop.
Qed.

Lemma slices_length {A} (size : nat) (l : list A) :
  length (slices size l) = ((length l + size - 1) / size).
Proof. unfold slices, py_range. by rewrite !length_fmap, length_seq. Qed.

(** Taking the first [p] slices is slicing the first [p * size] elements. *)
Lemma slices_take {A} (size p : nat) (l : list A) :
  0 < size → slices size (take (p * size) l) = take p (slices size l).
Proof.
  intros Hs. revert l. induction p as [|p IH]; intros l.
  - simpl. rewrite take_0. by apply slices_nil.
  - destruct l as [|x l].
    { rewrite take_nil, slices_nil by done. done. }
    rewrite (slices_cons size (x :: l)) by done.
    rewrite (slices_cons size (take (S p * size) (x :: l))).
    + cbn [take]. f_equal.
      * rewrite take_take. f_equal. lia.
      * rewrite <- IH. f_equal.
        by rewrite take_drop_commute.
    + done.
    + destruct size; [lia | done].
Qed.

Lemma concat_slices {A} (size : nat) (l : list A) :
  0 < size → concat (slices size l) = l.
Proof.
  intros Hs. remember (length l) as n eqn:Hn. revert l Hn.
  induction n as [n IH] using lt_wf_ind. intros l ->.
  destruct l as [|x l]; [by rewrite slices_nil|].
  rewrite slices_cons by done. cbn [concat].
  rewrite (IH (length (drop size (x :: l)))); [apply take_drop| |done].
  rewrite length_drop. simpl. lia.
Qed.

Lemma concat_take_slices {A} (size p : nat) (l : list A) :
  0 < size → concat (take p (slices size l)) = take (p * size) l.
Proof. intros Hs. rewrite <- slices_take by done. by apply concat_slices. Qed.

Lemma concat_drop_slices {A} (size p : nat) (l : list A) :
  0 < size → concat (drop p (slices size l)) = drop (p * size) l.
Proof.
  intros Hs.
  pose proof (concat_slices size l Hs) as Hall.
  rewrite <- (take_drop p (slices size l)), concat_app in Hall.
  rewrite concat_take_slices in Hall by done.
  rewrite <- (take_drop (p * size) l) in Hall at 3.
  by apply app_inv_head in Hall.
Qed.

(** C8: a cycle hands at most [PARALLEL_IGDB_REQUESTS] sub-batches to
    [process_chunk]: the first ones, which hold the first
    [PARALLEL_IGDB_REQUESTS * BATCH_SIZE] rows of the chunk.  The sub-batches
    after them hold the other rows and are dropped: the cycle does what it
    does on the chunk cut after those first rows, so the other rows are not
    fetched and nothing is written for them. *)
Theorem sub_batches_beyond_cap_dropped (cfg : settings) (chunk : list candidate) :
  0 < BATCH_SIZE cfg →
  let cap := PARALLEL_IGDB_REQUESTS cfg in
  let sub_chunks := slices (BATCH_SIZE cfg) chunk in
  length (dispatched cfg chunk) ≤ cap ∧
  sub_chunks = (dispatched cfg chunk ++ drop cap sub_chunks)%list ∧
  concat (dispatched cfg chunk) = take (cap * BATCH_SIZE cfg) chunk ∧
  concat (drop cap sub_chunks) = drop (cap * BATCH_SIZE cfg) chunk ∧
  (∀ world post database localtime_date,
     cycle cfg world post database localtime_date chunk
     = cycle cfg world post database localtime_date
         (take (cap * BATCH_SIZE cfg) chunk)).
Proof.
  intros Hs cap sub_chunks. unfold cycle, dispatched. fold cap sub_chunks.
  split; [rewrite length_take; lia|].
  split; [by rewrite take_drop|].
  split; [by apply concat_take_slices|].
  split; [by apply concat_drop_slices|].
  intros. rewrite slices_take by done. fold sub_chunks. by rewrite take_idemp.
Qed.

(** With the constants of the script a chunk has at most 5000 rows, hence at
    most 10 sub-batches, and the cap of 20 drops none. *)
Lemma aggressive_settings_drop_nothing {A} (chunk : list A) :
  length chunk ≤ CHUNK_SIZE aggressive_settings →
  dispatched aggressive_settings chunk
  = slices (BATCH_SIZE aggressive_settings) chunk.
Proof.
  intros Hlen. unfold dispatched. apply take_ge.
  rewrite slices_length.
  change (BATCH_SIZE aggressive_settings) with 500.
  change (PARALLEL_IGDB_REQUESTS aggressive_settings) with 20.
  change (CHUNK_SIZE aggressive_settings) with 5000 in Hlen.
  apply Nat.Div0.div_le_upper_bound. lia.
Qed.

End BatcherFacts.

(** ** Fetcher and orchestration *)

Section OrchestrationFacts.

Variable cfg : settings.
Variable world : Type.
Variable post : list Z → world → result reply * world.
Variable database : db_call → world → result nat * world.
Variable localtime_date : Q → result date.

(** [gather] returns, with one entry for each task, whatever the tasks
    raise. *)
Lemma gather_returns {A} (tasks : list (prog world A)) (σ : sync world) :
  ∃ rs σ', gather world tasks σ = (Ok rs, σ') ∧ length rs = length tasks.
Proof.
  revert σ. induction tasks as [|task tasks IH]; intros σ.
  - exists [], σ. done.
  - simpl. destruct (task σ) as [r σ1].
    destruct (IH σ1) as (rs & σ2 & Hg & Hlen).
    exists (r :: rs), σ2. unfold bind. rewrite Hg. simpl. by rewrite Hlen.
Qed.








End OrchestrationFacts.

(** ** Concrete runs *)

Lemma fill_if_empty_keeps_existing_witness :
  let g' := set_clause 1700000000 stored_game incoming_game in
  g_summary g' = Some "Stored summary." ∧
  g_cover_url g' = Some "https://images.igdb.com/t_1080p/old.jpg" ∧
  g_release_date g' = Some (mk_date 2000 2 29) ∧
  g_developer g' = Some "Stored Developer" ∧
  g_publisher g' = Some "Stored Publisher" ∧
  g_franchise_name g' = Some "Stored Franchise" ∧
  g_collection_name g' = Some "Stored Collection" ∧
  g_category g' = Some 0 ∧
  g_parent_game g' = Some 5.
Proof.
  destruct (fill_if_empty_keeps_existing 1700000000 stored_game incoming_game)
    as (H1 & H2 & H3 & H4 & H5 & H6 & H7 & H8 & H9).
  cbv zeta.
  refine (conj (H1 _) (conj (H2 _) (conj (H3 _) (conj (H4 _) (conj (H5 _)
           (conj (H6 _) (conj (H7 _) (conj (H8 _) (H9 _)))))))));
    eexists; reflexivity.
Defined.

Example transform_rated_game :
  transform_game utc_date (rated_game 25) = Ok (rated_game_out 25) ∧
  transform_game utc_date (rated_game 3000000000) = Ok (rated_game_out 3000000000).
Proof. split; vm_compute; reflexivity. Qed.

Lemma rating_count_is_max_witness :
  ∃ after,
    g_rating_count (set_clause 1700000000 stored_game (rated_staged 25)) = Some after ∧
    10 ≤ after ∧ after = 25.
Proof.
  destruct (rating_count_is_max (λ _, "") (λ _, None) (λ _, None)
              1700000000 stored_game (rated_row 25) 10 eq_refl) as [Hmax _].
  destruct (Hmax (rated_staged 25)) as (after & Hafter & Hle & Hin & _).
  { vm_compute. reflexivity. }
  exists after. split; [exact Hafter|]. split; [exact Hle|].
  refine (proj2 (Hin 25 _)). vm_compute. reflexivity.
Defined.

(** C3, as stated, fails: a record with 3000000000 ratings, matched by the
    row of game 42 that has 10, has no count stored at all.  Its count does
    not fit an [INTEGER], the cast raises whatever the server reads in other
    texts, and the statement can only raise. *)
Lemma rating_count_out_of_range :
  transform_game utc_date (rated_game 3000000000) = Ok (rated_game_out 3000000000) ∧
  g_rating_count stored_game = Some 10 ∧
  joins_row stored_game (rated_row 3000000000) = true ∧
  ∀ jsonb_out int4in date_in now,
    (∀ r, row_written jsonb_out int4in date_in now
            [rated_row 3000000000] stored_game r →
          r = Raise DataError) ∧
    (∀ r, written jsonb_out int4in date_in now
            [rated_row 3000000000] [stored_game] r →
          r = Raise DataError).
Proof.
  split; [vm_compute; reflexivity|]. split; [reflexivity|]. split; [reflexivity|].
  intros jsonb_out int4in date_in now.
  assert (∀ r, row_written jsonb_out int4in date_in now
                 [rated_row 3000000000] stored_game r → r = Raise DataError) as Hrow.
  { intros r. apply row_written_raises.
    - exists (rated_row 3000000000). split; [apply list_elem_of_here | reflexivity].
    - intros row Hin%list_elem_of_singleton _. subst row. vm_compute. reflexivity. }
  split; [exact Hrow|]. intros r.
  inversion 1 as [tbl' Hall|g e Hin Hr]; subst.
  - apply Forall2_cons_inv_l in Hall as (g' & tbl'' & Hr & _ & _).
    apply Hrow in Hr. discriminate.
  - apply list_elem_of_singleton in Hin as ->. apply Hrow in Hr.
    by injection Hr as ->.
Qed.

Example alternative_names_of_stored_game :
  g_alternative_names stored_game = Some [Some "Old name"; Some "Older name"] ∧
  g_alternative_names (set_clause 1700000000 stored_game incoming_game)
  = Some [Some "AG"].
Proof. split; reflexivity. Qed.

(** The first joining staged row is used: the row with [igdb_id] 42 is
    filled, and one row is counted. *)
Example update_game_stored_game :
  update_game 1700000000 [incoming_game] [stored_game]
  = [set_clause 1700000000 stored_game incoming_game] ∧
  update_count [incoming_game] [stored_game] = 1%nat.
Proof. split; reflexivity. Qed.

(** Five rows in batches of two with a cap of two: the fifth row is in the
    third sub-batch, which is dropped. *)
Lemma sub_batches_beyond_cap_dropped_witness :
  (length (dispatched tiny_settings five_rows) ≤ 2)%nat ∧
  slices 2 five_rows
  = (dispatched tiny_settings five_rows ++ drop 2 (slices 2 five_rows))%list ∧
  concat (dispatched tiny_settings five_rows) = take 4 five_rows ∧
  concat (drop 2 (slices 2 five_rows)) = drop 4 five_rows ∧
  (∀ world post database localtime_date,
     cycle tiny_settings world post database localtime_date five_rows
     = cycle tiny_settings world post database localtime_date
         (take 4 five_rows)).
Proof.
  apply (sub_batches_beyond_cap_dropped tiny_settings five_rows).
  simpl. lia.
Defined.

Example dropped_sub_batch :
  dispatched tiny_settings five_rows = [[row 1; row 2]; [row 3; row 4]] ∧
  drop 2 (slices 2 five_rows) = [[row 5]].
Proof. split; reflexivity. Qed.


(** The clock shows 2 seconds at the end of this run, which started at 0. *)
Example run_with_api_down :
  run tiny_settings nat api_down (database_updating 0) (λ w, (Ok five_rows, w)) utc_date
    0 request_clock (mk_sync 0 0 0 0 [] 0%nat)
  = (Ok (),
     mk_sync 5 4 0 0
       [Banner; Found 5; IGDB_error 503; IGDB_error 503;
        Progress 4 5 0; Complete 0; Rate] 2%nat).
Proof. vm_compute. reflexivity. Qed.

(** With no row to sync and a clock that has not moved, the last line of
    [run] divides by zero. *)
Example run_in_no_time :
  run tiny_settings nat api_down (database_updating 0) (λ w, (Ok [], w)) utc_date
    0 request_clock (mk_sync 0 0 0 0 [] 0%nat)
  = (Raise ZeroDivisionError,
     mk_sync 0 0 0 0 [Banner; Found 0; Complete 0] 0%nat).
Proof. vm_compute. reflexivity. Qed.

(** * Further properties *)

(** ** Transformer: the other entries of the dictionary *)

Section TransformerFields.

Variable localtime_date : Q → result date.

(** The steps behind a returned dictionary. *)
Ltac transform_steps H :=
  unfold transform_game in H;
  repeat (apply bind_Ok in H as (? & ? & H));
  injection H as <-; cbn [tr_igdb_id tr_summary tr_release_date tr_cover_url
    tr_platforms tr_screenshots tr_total_rating tr_rating_count
    tr_metacritic_score tr_franchise_name tr_collection_name
    tr_alternative_names tr_similar_game_ids tr_dlc_ids tr_expansion_ids
    tr_category tr_parent_game tr_developer tr_publisher].

(** X1: a record without an id raises [KeyError], whatever else it holds:
    the id is the first entry evaluated. *)
Theorem transform_game_missing_id (igdb_data : gmap string pyval) :
  igdb_data !! "id" = None →
  transform_game localtime_date igdb_data = Raise KeyError.
Proof. intros H. unfold transform_game, dict_item. by rewrite H. Qed.

(** X2: the transform reads eighteen keys; any other key of the record,
    such as the [name] the query asks for, changes nothing in the result. *)
Theorem transform_game_ignores_other_keys
    (igdb_data : gmap string pyval) (k : string) (v : pyval) :
  k ∉ transform_keys →
  transform_game localtime_date (<[k:=v]> igdb_data)
  = transform_game localtime_date igdb_data.
Proof.
  unfold transform_keys. rewrite !not_elem_of_cons. intros H. destruct_and!.
  unfold transform_game, release_date_of, cover_url_of, screenshots_of,
    first_name_of, companies_of.
  rewrite !dict_get_insert_ne by done.
  by rewrite !dict_item_insert_ne by done.
Qed.

Lemma py_item_Ok (x : pyval) (k : string) (v : pyval) :
  py_item x k = Ok v → ∃ d, x = PDict d ∧ d !! k = Some v.
Proof.
  destruct x as [| | | | | | |d| |]; try discriminate. simpl. unfold dict_item.
  destruct (d !! k) as [w|] eqn:Hk; [|discriminate]. intros [= <-]. eauto.
Qed.

Lemma project_Ok (k : string) (l : list pyval) (names : list pyval) :
  project k (PList l) = Ok names →
  Forall2 (λ x n, ∃ d, x = PDict d ∧ d !! k = Some n) l names.
Proof.
  unfold project. simpl. intros H%mapM_Ok_Forall2.
  eapply Forall2_impl; [exact H|]. intros x n. apply py_item_Ok.
Qed.

(** X3: the platforms and the alternative names of the result are the
    [name]s of the elements of the record's lists, one for one and in the
    same order. *)
Theorem projections_keep_order (igdb_data : gmap string pyval) (t : transformed) :
  transform_game localtime_date igdb_data = Ok t →
  (∀ ps, igdb_data !! "platforms" = Some (PList ps) →
     Forall2 (λ p n, ∃ d, p = PDict d ∧ d !! "name" = Some n)
       ps (tr_platforms t)) ∧
  (∀ alts, igdb_data !! "alternative_names" = Some (PList alts) →
     Forall2 (λ a n, ∃ d, a = PDict d ∧ d !! "name" = Some n)
       alts (tr_alternative_names t)).
Proof.
  intros H. transform_steps H. split.
  - intros ps Hps. apply project_Ok.
    by match goal with
       | Hp : project _ (dict_get _ "platforms" _) = _ |- _ =>
           unfold dict_get in Hp; rewrite Hps in Hp
       end.
  - intros alts Ha. apply project_Ok.
    by match goal with
       | Hp : project _ (dict_get _ "alternative_names" _) = _ |- _ =>
           unfold dict_get in Hp; rewrite Ha in Hp
       end.
Qed.

(** X4: the screenshots of the result are the rewritten URLs of the
    record's screenshots, one for one and in the same order. *)
Theorem screenshots_rewritten (igdb_data : gmap string pyval) (t : transformed)
    (ss : list pyval) :
  transform_game localtime_date igdb_data = Ok t →
  igdb_data !! "screenshots" = Some (PList ss) →
  Forall2 (λ s out, ∃ d u, s = PDict d ∧ d !! "url" = Some (PStr u) ∧
                           out = PStr (image_url u))
    ss (tr_screenshots t).
Proof.
  intros H Hss. transform_steps H.
  match goal with
  | Hs : screenshots_of _ = _ |- _ =>
      unfold screenshots_of, dict_get in Hs; rewrite Hss in Hs; simpl in Hs;
      apply mapM_Ok_Forall2 in Hs; eapply Forall2_impl; [exact Hs|]
  end.
  intros s out Hs. simpl in Hs.
  apply bind_Ok in Hs as (url & Hurl & Hout).
  apply py_item_Ok in Hurl as (d & -> & Hd).
  destruct url as [| | | |u| | | | |]; try discriminate.
  injection Hout as <-. eauto.
Qed.

Lemma image_url_empty (u : string) : image_url u = "" → u = "".
Proof.
  intros H. pose proof (image_url_length u) as Hlen. rewrite H in Hlen.
  destruct u as [|c u]; [done|]. exfalso.
  pose proof (replace_from_length_ge "//images.igdb.com" "https://images.igdb.com"
                ltac:(simpl; lia) ltac:(simpl; lia) (String c u) 0%nat
                ltac:(lia)) as Hge.
  change (str_replace "//images.igdb.com" "https://images.igdb.com" (String c u))
    with (replace_from "//images.igdb.com" "https://images.igdb.com" 0 (String c u))
    in Hlen.
  simpl in Hlen, Hge. lia.
Qed.

Lemma py_or_PStr (s : string) :
  py_or (PStr s) PNone = if decide (s = "") then PNone else PStr s.
Proof.
  unfold py_or. cbn [truthy].
  destruct (String.eqb_spec s ""), (decide (s = "")); done.
Qed.

Lemma cover_url_of_string (igdb_data c : gmap string pyval) (u : string) :
  igdb_data !! "cover" = Some (PDict c) → c !! "url" = Some (PStr u) →
  cover_url_of igdb_data = Ok (py_or (PStr (image_url u)) PNone).
Proof.
  intros Hc Hu. unfold cover_url_of, dict_get. rewrite Hc. simpl.
  unfold dict_get. by rewrite Hu.
Qed.

(** X5: with a string as the cover URL, the cover of the result is [None]
    only for the empty string, and the rewritten URL otherwise; a cover
    object without a url gives [None]. *)
Theorem cover_url_of_record (igdb_data : gmap string pyval) (t : transformed)
    (c : gmap string pyval) :
  transform_game localtime_date igdb_data = Ok t →
  igdb_data !! "cover" = Some (PDict c) →
  (∀ u, c !! "url" = Some (PStr u) →
     tr_cover_url t = if decide (u = "") then PNone else PStr (image_url u)) ∧
  (c !! "url" = None → tr_cover_url t = PNone).
Proof.
  intros H Hc. transform_steps H.
  match goal with Hcov : cover_url_of _ = Ok ?x |- _ => rename Hcov into Hcover end.
  split.
  - intros u Hu. rewrite (cover_url_of_string _ _ _ Hc Hu) in Hcover.
    injection Hcover as <-. rewrite py_or_PStr.
    destruct (decide (u = "")) as [->|Hne]; [done|].
    destruct (decide (image_url u = "")) as [He|]; [|done].
    by apply image_url_empty in He.
  - intros Hu. unfold cover_url_of, dict_get in Hcover.
    rewrite Hc in Hcover. simpl in Hcover.
    unfold dict_get in Hcover. rewrite Hu in Hcover. by injection Hcover as <-.
Qed.

(** Rounding to the nearest integer, ties to the even one. *)
Lemma round_half_even_spec (q : Q) :
  let z := round_half_even q in
  (- (1 # 2) <= inject_Z z - q)%Q ∧ (inject_Z z - q <= 1 # 2)%Q ∧
  ((inject_Z z - q == 1 # 2)%Q ∨ (q - inject_Z z == 1 # 2)%Q → Z.even z = true).
Proof.
  unfold round_half_even.
  pose proof (Qfloor_le q) as Hlo. pose proof (Qlt_floor q) as Hhi.
  rewrite inject_Z_plus in Hhi. change (inject_Z 1) with 1%Q in Hhi.
  destruct (Qcompare_spec (q - inject_Z (Qfloor q)) (1 # 2)) as [He|Hl|Hg].
  - destruct (Z.even (Qfloor q)) eqn:Heven.
    + repeat split; [lra | lra | done].
    + rewrite inject_Z_plus. change (inject_Z 1) with 1%Q.
      repeat split; [lra | lra |]. intros _.
      rewrite Z.add_1_r, Z.even_succ, <- Z.negb_even, Heven. done.
  - repeat split; [lra | lra |]. intros [H|H]; lra.
  - rewrite inject_Z_plus. change (inject_Z 1) with 1%Q.
    repeat split; [lra | lra |]. intros [H|H]; lra.
Qed.

(** X6: a rating given as a fraction is stored as an integer at most one
    half away from it, the even one when two are as near; this holds for
    [total_rating] and for [aggregated_rating], stored as
    [metacritic_score]. *)
Theorem ratings_rounded_half_even (igdb_data : gmap string pyval) (t : transformed) :
  transform_game localtime_date igdb_data = Ok t →
  (∀ q, igdb_data !! "total_rating" = Some (PFloat q) →
     ∃ z, tr_total_rating t = PInt z ∧
          (- (1 # 2) <= inject_Z z - q)%Q ∧ (inject_Z z - q <= 1 # 2)%Q ∧
          ((inject_Z z - q == 1 # 2)%Q ∨ (q - inject_Z z == 1 # 2)%Q →
           Z.even z = true)) ∧
  (∀ q, igdb_data !! "aggregated_rating" = Some (PFloat q) →
     ∃ z, tr_metacritic_score t = PInt z ∧
          (- (1 # 2) <= inject_Z z - q)%Q ∧ (inject_Z z - q <= 1 # 2)%Q ∧
          ((inject_Z z - q == 1 # 2)%Q ∨ (q - inject_Z z == 1 # 2)%Q →
           Z.even z = true)).
Proof.
  intros H. transform_steps H. split; intros q Hq.
  - match goal with
    | Hr : py_round (dict_get _ "total_rating" _) = _ |- _ =>
        unfold dict_get in Hr; rewrite Hq in Hr; injection Hr as <-
    end.
    eexists. split; [reflexivity|]. apply round_half_even_spec.
  - match goal with
    | Hr : py_round (dict_get _ "aggregated_rating" _) = _ |- _ =>
        unfold dict_get in Hr; rewrite Hq in Hr; injection Hr as <-
    end.
    eexists. split; [reflexivity|]. apply round_half_even_spec.
Qed.

(** X7: of the franchises and of the collections only the first element
    counts: its [name], or [None] when it has none; the other elements are
    not read. *)
Theorem first_franchise_and_collection
    (igdb_data : gmap string pyval) (t : transformed) :
  transform_game localtime_date igdb_data = Ok t →
  (∀ d others, igdb_data !! "franchises" = Some (PList (PDict d :: others)) →
     tr_franchise_name t = default PNone (d !! "name")) ∧
  (∀ d others, igdb_data !! "collections" = Some (PList (PDict d :: others)) →
     tr_collection_name t = default PNone (d !! "name")).
Proof.
  intros H. transform_steps H. split; intros d others Hl.
  - match goal with
    | Hf : first_name_of "franchises" _ = _ |- _ =>
        unfold first_name_of, dict_get in Hf; rewrite Hl in Hf;
        by injection Hf as <-
    end.
  - match goal with
    | Hf : first_name_of "collections" _ = _ |- _ =>
        unfold first_name_of, dict_get in Hf; rewrite Hl in Hf;
        by injection Hf as <-
    end.
Qed.

(** X8: an integer release timestamp other than 0 gives the date the host
    computes for it; when the host cannot convert it, the transform of a
    record with an id raises the host's exception. *)
Theorem release_date_of_timestamp (igdb_data : gmap string pyval) (ts : Z) :
  igdb_data !! "first_release_date" = Some (PInt ts) → ts ≠ 0 →
  (∀ t, transform_game localtime_date igdb_data = Ok t →
        ∃ d, localtime_date (inject_Z ts) = Ok d ∧ tr_release_date t = PDate d) ∧
  (∀ e, is_Some (igdb_data !! "id") →
        localtime_date (inject_Z ts) = Raise e →
        transform_game localtime_date igdb_data = Raise e).
Proof.
  intros Hts Hnz.
  assert (release_date_of localtime_date igdb_data
          = PDate <$> localtime_date (inject_Z ts)) as Hrel.
  { unfold release_date_of, dict_get, dict_item. rewrite Hts. simpl.
    by destruct (Z.eqb_spec ts 0). }
  split.
  - intros t H. transform_steps H.
    match goal with Hr : release_date_of _ _ = _ |- _ => rewrite Hrel in Hr;
      apply fmap_Ok in Hr as (d & Hd & ->) end.
    eauto.
  - intros e [i Hi] He. unfold transform_game, dict_item.
    rewrite Hi, Hrel, He. done.
Qed.

(** X9: when no involved company is flagged as developer, the result has no
    [developer] key, and likewise for [publisher]; so has a record without
    involved companies. *)
Theorem no_flag_no_key (igdb_data : gmap string pyval) (t : transformed) :
  transform_game localtime_date igdb_data = Ok t →
  (∀ cs, igdb_data !! "involved_companies" = Some (PList cs) →
     Forall (λ c, flagged "developer" c = false) cs →
     tr_developer t = None ∧ to_dict t !! "developer" = None) ∧
  (∀ cs, igdb_data !! "involved_companies" = Some (PList cs) →
     Forall (λ c, flagged "publisher" c = false) cs →
     tr_publisher t = None ∧ to_dict t !! "publisher" = None) ∧
  (igdb_data !! "involved_companies" = None →
     tr_developer t = None ∧ tr_publisher t = None).
Proof.
  intros H.
  pose proof (transform_game_Ok _ _ _ H) as (_ & _ & _ & _ & _ & Hc).
  unfold companies_of, dict_get in Hc.
  assert (∀ o, tr_developer t = None →
               (match tr_publisher t with
                | Some n => <["publisher" := n]> o
                | None => o
                end : gmap string pyval) !! "developer" = o !! "developer") as Hdev.
  { intros o _. destruct (tr_publisher t); [by rewrite lookup_insert_ne|done]. }
  split; [|split].
  - intros cs Hcs Hall. rewrite Hcs in Hc. simpl in Hc.
    apply (for_each_unflagged_developer _ _ _ Hall) in Hc. simpl in Hc.
    split; [done|]. unfold to_dict. rewrite Hdev by done. by rewrite Hc.
  - intros cs Hcs Hall. rewrite Hcs in Hc. simpl in Hc.
    apply (for_each_unflagged_publisher _ _ _ Hall) in Hc. simpl in Hc.
    split; [done|]. unfold to_dict. rewrite Hc.
    by destruct (tr_developer t).
  - intros Hnone. rewrite Hnone in Hc. simpl in Hc. by injection Hc as -> ->.
Qed.

(** X10: a key the record does not have gets its default in the result:
    [None] for the summary, the release date, the cover, the franchise, the
    collection, the category and the parent game, 0 for the two ratings and
    the rating count, and the empty list for the list entries. *)
Theorem absent_keys_get_defaults (igdb_data : gmap string pyval) (t : transformed) :
  transform_game localtime_date igdb_data = Ok t →
  (igdb_data !! "summary" = None → tr_summary t = PNone) ∧
  (igdb_data !! "first_release_date" = None → tr_release_date t = PNone) ∧
  (igdb_data !! "cover" = None → tr_cover_url t = PNone) ∧
  (igdb_data !! "platforms" = None → tr_platforms t = []) ∧
  (igdb_data !! "screenshots" = None → tr_screenshots t = []) ∧
  (igdb_data !! "total_rating" = None → tr_total_rating t = PInt 0) ∧
  (igdb_data !! "total_rating_count" = None → tr_rating_count t = PInt 0) ∧
  (igdb_data !! "aggregated_rating" = None → tr_metacritic_score t = PInt 0) ∧
  (igdb_data !! "franchises" = None → tr_franchise_name t = PNone) ∧
  (igdb_data !! "collections" = None → tr_collection_name t = PNone) ∧
  (igdb_data !! "alternative_names" = None → tr_alternative_names t = []) ∧
  (igdb_data !! "similar_games" = None → tr_similar_game_ids t = PList []) ∧
  (igdb_data !! "dlcs" = None → tr_dlc_ids t = PList []) ∧
  (igdb_data !! "expansions" = None → tr_expansion_ids t = PList []) ∧
  (igdb_data !! "category" = None → tr_category t = PNone) ∧
  (igdb_data !! "parent_game" = None → tr_parent_game t = PNone).
Proof.
  intros H. transform_steps H.
  repeat split; intros Hk;
    repeat match goal with
           | Hs : _ = Ok _ |- _ =>
               unfold release_date_of, cover_url_of, screenshots_of,
                 first_name_of, project, dict_get, dict_item in Hs;
               rewrite ?Hk in Hs; simpl in Hs;
               first [injection Hs as <- | clear Hs]
           end;
    unfold dict_get; rewrite ?Hk; done.
Qed.

End TransformerFields.

(** *** Concrete records *)

Lemma transform_game_missing_id_witness :
  transform_game utc_date anonymous_game = Raise KeyError.
Proof. apply transform_game_missing_id. vm_compute. reflexivity. Defined.

Lemma transform_game_ignores_other_keys_witness :
  transform_game utc_date (<["name" := PStr "Renamed"]> full_game)
  = transform_game utc_date full_game.
Proof.
  apply transform_game_ignores_other_keys.
  unfold transform_keys.
  repeat (apply not_elem_of_cons; split; [discriminate|]).
  apply not_elem_of_nil.
Defined.

Lemma projections_keep_order_witness :
  ∃ t, transform_game utc_date full_game = Ok t ∧
       Forall2 (λ p n, ∃ d, p = PDict d ∧ d !! "name" = Some n)
         [PDict {[ "name" := PStr "PC" ]}] (tr_platforms t).
Proof.
  eexists. split; [vm_compute; reflexivity|].
  match goal with
  | |- context [tr_platforms ?t] =>
      apply (proj1 (projections_keep_order utc_date full_game t
                      ltac:(vm_compute; reflexivity)))
  end.
  vm_compute. reflexivity.
Defined.

Lemma screenshots_rewritten_witness :
  ∃ t, transform_game utc_date full_game = Ok t ∧
       Forall2 (λ s out, ∃ d u, s = PDict d ∧ d !! "url" = Some (PStr u) ∧
                                out = PStr (image_url u))
         [PDict {[ "url" := PStr "//images.igdb.com/t_thumb/s.jpg" ]}]
         (tr_screenshots t).
Proof.
  eexists. split; [vm_compute; reflexivity|].
  match goal with
  | |- context [tr_screenshots ?t] =>
      apply (screenshots_rewritten utc_date full_game t)
  end; vm_compute; reflexivity.
Defined.

Lemma cover_url_of_record_witness :
  ∃ t, transform_game utc_date full_game = Ok t ∧
       tr_cover_url t = PStr (image_url "//images.igdb.com/t_thumb/abc.jpg").
Proof.
  eexists. split; [vm_compute; reflexivity|].
  match goal with
  | |- tr_cover_url ?t = _ =>
      apply (proj1 (cover_url_of_record utc_date full_game t
                      {[ "url" := PStr "//images.igdb.com/t_thumb/abc.jpg" ]}
                      ltac:(vm_compute; reflexivity)
                      ltac:(vm_compute; reflexivity))
               "//images.igdb.com/t_thumb/abc.jpg")
  end.
  vm_compute. reflexivity.
Defined.

Lemma ratings_rounded_half_even_witness :
  ∃ t, transform_game utc_date full_game = Ok t ∧
       ∃ z, tr_total_rating t = PInt z ∧
            (- (1 # 2) <= inject_Z z - (175 # 2))%Q ∧
            (inject_Z z - (175 # 2) <= 1 # 2)%Q ∧
            ((inject_Z z - (175 # 2) == 1 # 2)%Q ∨
             ((175 # 2) - inject_Z z == 1 # 2)%Q → Z.even z = true).
Proof.
  eexists. split; [vm_compute; reflexivity|].
  match goal with
  | |- context [tr_total_rating ?t] =>
      apply (proj1 (ratings_rounded_half_even utc_date full_game t
                      ltac:(vm_compute; reflexivity)))
  end.
  vm_compute. reflexivity.
Defined.

Lemma first_franchise_and_collection_witness :
  ∃ t, transform_game utc_date full_game = Ok t ∧
       tr_franchise_name t = PStr "Saga".
Proof.
  eexists. split; [vm_compute; reflexivity|].
  assert (full_game !! "franchises"
          = Some (PList [PDict {[ "name" := PStr "Saga" ]}])) as Hf
    by (vm_compute; reflexivity).
  match goal with
  | |- tr_franchise_name ?t = _ =>
      exact (proj1 (first_franchise_and_collection utc_date full_game t
                      ltac:(vm_compute; reflexivity)) _ _ Hf)
  end.
Defined.

Lemma release_date_of_timestamp_witness :
  ∃ t, transform_game utc_date full_game = Ok t ∧
       ∃ d, utc_date (inject_Z 951782400) = Ok d ∧ tr_release_date t = PDate d.
Proof.
  eexists. split; [vm_compute; reflexivity|].
  match goal with
  | |- context [tr_release_date ?t] =>
      apply (proj1 (release_date_of_timestamp utc_date full_game 951782400
                      ltac:(vm_compute; reflexivity) ltac:(discriminate)) t)
  end.
  vm_compute. reflexivity.
Defined.

Lemma no_flag_no_key_witness :
  ∃ t, transform_game utc_date ported_game = Ok t ∧
       tr_developer t = None ∧ to_dict t !! "developer" = None.
Proof.
  eexists. split; [vm_compute; reflexivity|].
  match goal with
  | |- tr_developer ?t = _ ∧ _ =>
      apply (proj1 (no_flag_no_key utc_date ported_game t
                      ltac:(vm_compute; reflexivity))
               [studio false false "Porting House"])
  end.
  - vm_compute. reflexivity.
  - constructor; [vm_compute; reflexivity | constructor].
Defined.

Lemma absent_keys_get_defaults_witness :
  ∃ t, transform_game utc_date bare_game = Ok t ∧
       tr_summary t = PNone ∧ tr_total_rating t = PInt 0 ∧
       tr_rating_count t = PInt 0 ∧ tr_platforms t = [].
Proof.
  eexists. split; [vm_compute; reflexivity|].
  match goal with
  | |- tr_summary ?t = _ ∧ _ =>
      destruct (absent_keys_get_defaults utc_date bare_game t
                  ltac:(vm_compute; reflexivity))
        as (Hsum & _ & _ & Hplat & _ & Htot & Hcount & _)
  end.
  split; [apply Hsum; vm_compute; reflexivity|].
  split; [apply Htot; vm_compute; reflexivity|].
  split; [apply Hcount; vm_compute; reflexivity|].
  apply Hplat. vm_compute. reflexivity.
Defined.

(** ** Writer: the other columns and the table *)

(** X11: the list columns [platforms] and [screenshots] are filled as a
    whole: a stored list with an element is kept, a stored list that is NULL
    or empty is replaced by the staged list. *)
Theorem list_columns_fill_if_empty (now : Z) (g : game) (t : staged) :
  (∀ x l, g_platforms g = Some (x :: l) →
          g_platforms (set_clause now g t) = Some (x :: l)) ∧
  (g_platforms g = None ∨ g_platforms g = Some [] →
   g_platforms (set_clause now g t) = Some (s_platforms t)) ∧
  (∀ x l, g_screenshots g = Some (x :: l) →
          g_screenshots (set_clause now g t) = Some (x :: l)) ∧
  (g_screenshots g = None ∨ g_screenshots g = Some [] →
   g_screenshots (set_clause now g t) = Some (s_screenshots t)).
Proof.
  repeat split.
  - intros x l H. simpl. by rewrite H.
  - intros [H|H]; simpl; by rewrite H.
  - intros x l H. simpl. by rewrite H.
  - intros [H|H]; simpl; by rewrite H.
Qed.

Lemma list_columns_fill_if_empty_witness :
  g_platforms (set_clause 1700000000 stored_game incoming_game) = Some [Some "PC"] ∧
  g_platforms (set_clause 1700000000 sparse_game incoming_game) = Some [Some "Switch"] ∧
  g_screenshots (set_clause 1700000000 sparse_game incoming_game)
  = Some [Some "https://images.igdb.com/t_1080p/s.jpg"].
Proof.
  split; [|split].
  - exact (proj1 (list_columns_fill_if_empty 1700000000 stored_game incoming_game)
             (Some "PC") [] eq_refl).
  - exact (proj1 (proj2 (list_columns_fill_if_empty 1700000000 sparse_game
                           incoming_game)) (or_intror eq_refl)).
  - exact (proj2 (proj2 (proj2 (list_columns_fill_if_empty 1700000000 sparse_game
                                  incoming_game))) (or_introl eq_refl)).
Defined.

(** X12: a column written through [COALESCE] that is NULL in the row takes
    the staged value, for the nine columns of the fill-if-empty rule and for
    the total rating. *)
Theorem fill_if_empty_fills_null (now : Z) (g : game) (t : staged) :
  (g_summary g = None → g_summary (set_clause now g t) = s_summary t) ∧
  (g_cover_url g = None → g_cover_url (set_clause now g t) = s_cover_url t) ∧
  (g_release_date g = None →
     g_release_date (set_clause now g t) = s_release_date t) ∧
  (g_developer g = None → g_developer (set_clause now g t) = s_developer t) ∧
  (g_publisher g = None → g_publisher (set_clause now g t) = s_publisher t) ∧
  (g_total_rating g = None →
     g_total_rating (set_clause now g t) = s_total_rating t) ∧
  (g_franchise_name g = None →
     g_franchise_name (set_clause now g t) = s_franchise_name t) ∧
  (g_collection_name g = None →
     g_collection_name (set_clause now g t) = s_collection_name t) ∧
  (g_category g = None → g_category (set_clause now g t) = s_category t) ∧
  (g_parent_game g = None → g_parent_game (set_clause now g t) = s_parent_game t).
Proof. repeat split; intros H; simpl; by rewrite H. Qed.

Lemma fill_if_empty_fills_null_witness :
  g_summary (set_clause 1700000000 sparse_game incoming_game) = Some "A game." ∧
  g_total_rating (set_clause 1700000000 sparse_game incoming_game) = Some 88.
Proof.
  destruct (fill_if_empty_fills_null 1700000000 sparse_game incoming_game)
    as (Hsum & _ & _ & _ & _ & Htot & _).
  exact (conj (Hsum eq_refl) (Htot eq_refl)).
Defined.

Lemma joins_set_clause (now : Z) (g : game) (t t' : staged) :
  joins (set_clause now g t) t' = joins g t'.
Proof. reflexivity. Qed.

Lemma COALESCE_idem {A} (a b : option A) : COALESCE (COALESCE a b) b = COALESCE a b.
Proof. by destruct a, b. Qed.

Lemma nonempty_array_idem {A} (a : option (list A)) (b : list A) :
  COALESCE (nonempty_array (COALESCE (nonempty_array a) (Some b))) (Some b)
  = COALESCE (nonempty_array a) (Some b).
Proof. by destruct a as [[|]|], b. Qed.

Lemma GREATEST_idem (a c : option Z) : GREATEST (GREATEST a c) c = GREATEST a c.
Proof. destruct a, c; simpl; f_equal; lia. Qed.

Lemma set_clause_twice (now : Z) (g : game) (t : staged) :
  set_clause now (set_clause now g t) t = set_clause now g t.
Proof.
  unfold set_clause. cbn [g_id g_igdb_id g_summary g_cover_url g_release_date
    g_developer g_publisher g_platforms g_screenshots g_total_rating
    g_rating_count g_metacritic_score g_franchise_name g_collection_name
    g_alternative_names g_category g_parent_game g_last_synced g_data_source].
  by rewrite !COALESCE_idem, !nonempty_array_idem, GREATEST_idem.
Qed.

Lemma row_updated_twice (now : Z) (temp : list staged) (g g' g'' : game) :
  (∀ t1 t2, t1 ∈ temp → t2 ∈ temp →
            is_Some (s_igdb_id t1) → s_igdb_id t1 = s_igdb_id t2 → t1 = t2) →
  row_updated now temp g g' → row_updated now temp g' g'' → g'' = g'.
Proof.
  intros Hkey H1 H2.
  destruct H1 as [g t Hin Hj|g Hno].
  - inversion H2 as [? t' Hin' Hj'|]; subst; [|done].
    rewrite joins_set_clause in Hj'.
    assert (t = t') as <-; [|apply set_clause_twice].
    apply Hkey; try done; unfold joins in Hj, Hj';
      destruct (g_igdb_id g), (s_igdb_id t), (s_igdb_id t'); try done.
    apply Z.eqb_eq in Hj, Hj'. congruence.
  - inversion H2 as [? t' Hin' Hj'|]; subst; [|done].
    by rewrite (Hno t' Hin') in Hj'.
Qed.

(** X13: when no two staged rows have the same id, running the statement a
    second time with the same staged rows and the same [NOW()] changes
    nothing more, whichever rows PostgreSQL picks. *)
Theorem updated_idempotent (now : Z) (temp : list staged)
    (tbl tbl' tbl'' : list game) :
  (∀ t1 t2, t1 ∈ temp → t2 ∈ temp →
            is_Some (s_igdb_id t1) → s_igdb_id t1 = s_igdb_id t2 → t1 = t2) →
  updated now temp tbl tbl' → updated now temp tbl' tbl'' → tbl'' = tbl'.
Proof.
  intros Hkey H1. revert tbl''.
  induction H1 as [|g g' tbl tbl' Hr _ IH]; intros tbl'' H2.
  - by apply Forall2_nil_inv_l in H2.
  - apply Forall2_cons_inv_l in H2 as (g'' & tbl2 & Hr2 & H2 & ->).
    f_equal; [by eapply row_updated_twice | by apply IH].
Qed.

Lemma updated_idempotent_witness :
  update_game 1700000000 [incoming_game]
    (update_game 1700000000 [incoming_game] [sparse_game; local_game])
  = update_game 1700000000 [incoming_game] [sparse_game; local_game].
Proof.
  apply (updated_idempotent 1700000000 [incoming_game] [sparse_game; local_game]).
  - intros t1 t2 H1%list_elem_of_singleton H2%list_elem_of_singleton _ _.
    congruence.
  - apply update_game_updated.
  - apply update_game_updated.
Defined.

(** With two staged rows for one game the statement may pick one the first
    time and the other the second time, and the second run then changes the
    row. *)
Example updated_twice_with_duplicates :
  let temp := [incoming_game; rescored_game] in
  let first := set_clause 1700000000 sparse_game incoming_game in
  let second := set_clause 1700000000 first rescored_game in
  updated 1700000000 temp [sparse_game] [first] ∧
  updated 1700000000 temp [first] [second] ∧
  g_metacritic_score first = Some 0 ∧
  g_metacritic_score second = Some 91.
Proof.
  cbv zeta. split; [|split; [|done]].
  - constructor; [|constructor].
    apply row_joined; [apply list_elem_of_here | reflexivity].
  - constructor; [|constructor].
    apply row_joined; [apply list_elem_of_further, list_elem_of_here | reflexivity].
Qed.

(** X14: the statement keeps the number and the order of the rows, their
    [id] and their [igdb_id]; a row that joins no staged row, as every row
    without an [igdb_id] does, is left as it is. *)
Theorem updated_frame (now : Z) (temp : list staged) (tbl tbl' : list game) :
  updated now temp tbl tbl' →
  length tbl' = length tbl ∧
  Forall2 (λ g g', g_id g' = g_id g ∧ g_igdb_id g' = g_igdb_id g ∧
                   ((∀ t, t ∈ temp → joins g t = false) → g' = g) ∧
                   (g_igdb_id g = None → g' = g))
          tbl tbl'.
Proof.
  intros H. split; [symmetry; by eapply Forall2_length|].
  eapply Forall2_impl; [exact H|].
  intros g g' Hr. destruct Hr as [g t Hin Hj|g Hno].
  - repeat split.
    + intros Hnone. by rewrite (Hnone t Hin) in Hj.
    + intros Hnull. unfold joins in Hj. by rewrite Hnull in Hj.
  - done.
Qed.

Lemma updated_frame_witness :
  length (update_game 1700000000 [incoming_game] [sparse_game; local_game]) = 2%nat ∧
  Forall2 (λ g g', g_id g' = g_id g ∧ g_igdb_id g' = g_igdb_id g ∧
                   ((∀ t, t ∈ [incoming_game] → joins g t = false) → g' = g) ∧
                   (g_igdb_id g = None → g' = g))
          [sparse_game; local_game]
          (update_game 1700000000 [incoming_game] [sparse_game; local_game]).
Proof.
  exact (updated_frame 1700000000 [incoming_game] [sparse_game; local_game] _
           (update_game_updated 1700000000 [incoming_game]
              [sparse_game; local_game])).
Defined.

(** X15: a row that joins a staged row is updated from one that joins it,
    and ends with the sync time, the source tag [turbo_sync], and values that
    are not NULL in [rating_count], [platforms], [screenshots] and
    [alternative_names]; a row that joins none is as it was. *)
Theorem joined_rows_are_marked (now : Z) (temp : list staged) (tbl tbl' : list game) :
  updated now temp tbl tbl' →
  Forall2 (λ g g',
             ((∃ t, t ∈ temp ∧ joins g t = true) →
              (∃ t, t ∈ temp ∧ joins g t = true ∧ g' = set_clause now g t) ∧
              g_last_synced g' = Some now ∧
              g_data_source g' = Some "turbo_sync" ∧
              is_Some (g_rating_count g') ∧
              is_Some (g_platforms g') ∧
              is_Some (g_screenshots g') ∧
              is_Some (g_alternative_names g')) ∧
             ((∀ t, t ∈ temp → joins g t = false) → g' = g))
          tbl tbl'.
Proof.
  intros H. eapply Forall2_impl; [exact H|].
  intros g g' Hr. destruct Hr as [g t Hin Hj|g Hno].
  - split.
    + intros _. split; [by exists t|].
      repeat split; simpl; try done.
      * destruct (g_rating_count g), (s_rating_count t); simpl; eauto.
      * destruct (g_platforms g) as [[|]|]; simpl; eauto.
      * destruct (g_screenshots g) as [[|]|]; simpl; eauto.
    + intros Hno. by rewrite (Hno t Hin) in Hj.
  - split; [|done]. intros (t & Hin & Hj). by rewrite (Hno t Hin) in Hj.
Qed.

Lemma joined_rows_are_marked_witness :
  g_last_synced (update_row 1700000000 [incoming_game] sparse_game)
  = Some 1700000000 ∧
  g_data_source (update_row 1700000000 [incoming_game] sparse_game)
  = Some "turbo_sync" ∧
  update_row 1700000000 [incoming_game] local_game = local_game.
Proof.
  pose proof (joined_rows_are_marked 1700000000 [incoming_game]
                [sparse_game; local_game] _
                (update_game_updated 1700000000 [incoming_game]
                   [sparse_game; local_game])) as H.
  apply Forall2_cons_1 in H as [[Hsparse _] H].
  apply Forall2_cons_1 in H as [[_ Hlocal] _].
  destruct Hsparse as (_ & Hsync & Hsource & _).
  { exists incoming_game. split; [apply list_elem_of_here | reflexivity]. }
  split; [exact Hsync|]. split; [exact Hsource|].
  apply Hlocal. intros t Ht%list_elem_of_singleton. by subst t.
Defined.

(** X16: after the statement a joined row is selected again by [run] only
    when its cover, its summary, its developer or its release date is NULL
    in the row and in the staged row alike: the sync time no longer counts. *)
Theorem needs_sync_after_update (now : Z) (g : game) (t : staged) :
  joins g t = true →
  needs_sync (set_clause now g t)
  = (bool_decide (g_cover_url g = None ∧ s_cover_url t = None) ||
     bool_decide (g_summary g = None ∧ s_summary t = None) ||
     bool_decide (g_developer g = None ∧ s_developer t = None) ||
     bool_decide (g_release_date g = None ∧ s_release_date t = None)).
Proof.
  intros Hj. unfold needs_sync, joins in *. simpl.
  destruct (g_igdb_id g); [|done].
  destruct (g_cover_url g), (s_cover_url t), (g_summary g), (s_summary t),
    (g_developer g), (s_developer t), (g_release_date g), (s_release_date t);
    reflexivity.
Qed.

Lemma needs_sync_after_update_witness :
  needs_sync sparse_game = true ∧
  needs_sync (set_clause 1700000000 sparse_game incoming_game) = true ∧
  g_release_date (set_clause 1700000000 sparse_game incoming_game) = None.
Proof.
  split; [reflexivity|]. split; [|reflexivity].
  rewrite (needs_sync_after_update 1700000000 sparse_game incoming_game eq_refl).
  reflexivity.
Defined.

(** ** Batcher: the slices *)

Section SliceFacts.

Local Open Scope nat_scope.

Lemma slices_bounds {A} (size : nat) (l : list A) :
  0 < size → Forall (λ b, 0 < length b ≤ size) (slices size l).
Proof.
  intros Hs. remember (length l) as n eqn:Hn. revert l Hn.
  induction n as [n IH] using lt_wf_ind. intros l ->.
  destruct l as [|x l]; [rewrite slices_nil by done; constructor|].
  rewrite slices_cons by done. constructor.
  - rewrite length_take. simpl. lia.
  - eapply IH; [|reflexivity]. rewrite length_drop. simpl. lia.
Qed.

(** X17: cutting a list into slices of a positive size loses and repeats
    nothing: the slices put end to end are the list; there are as many as
    the length divided by the size, rounded up; none is empty and none is
    longer than the size.  These are the chunks of [run], its sub-batches,
    and the id lists [process_chunk] hands to [fetch_igdb_batch]. *)
Theorem slices_partition {A} (size : nat) (l : list A) :
  0 < size →
  concat (slices size l) = l ∧
  length (slices size l) = (length l + size - 1) / size ∧
  Forall (λ b, 0 < length b ≤ size) (slices size l).
Proof.
  intros Hs. split; [by apply concat_slices|].
  split; [apply slices_length | by apply slices_bounds].
Qed.

Lemma slices_partition_witness :
  concat (slices 2 five_rows) = five_rows ∧
  length (slices 2 five_rows) = 3 ∧
  Forall (λ b, 0 < length b ≤ 2) (slices 2 five_rows).
Proof. apply (slices_partition 2 five_rows). lia. Defined.

(** X18: with the constants of the script no row is dropped: a chunk of
    [run] has at most 5000 rows, hence at most 10 sub-batches of 500, and all
    of them are within the cap of 20 handed to [process_chunk]. *)
Theorem script_constants_dispatch_every_row (games chunk : list candidate) :
  chunk ∈ slices (CHUNK_SIZE aggressive_settings) games →
  dispatched aggressive_settings chunk
  = slices (BATCH_SIZE aggressive_settings) chunk ∧
  concat (dispatched aggressive_settings chunk) = chunk.
Proof.
  intros Hin.
  assert (length chunk ≤ CHUNK_SIZE aggressive_settings) as Hlen.
  { pose proof (slices_bounds (CHUNK_SIZE aggressive_settings) games) as Hb.
    rewrite Forall_forall in Hb. apply Hb; [|done].
    change (CHUNK_SIZE aggressive_settings) with 5000. lia. }
  rewrite (aggressive_settings_drop_nothing chunk Hlen).
  split; [done|]. apply concat_slices.
  change (BATCH_SIZE aggressive_settings) with 500. lia.
Qed.

Lemma script_constants_dispatch_every_row_witness :
  dispatched aggressive_settings five_rows
  = slices (BATCH_SIZE aggressive_settings) five_rows ∧
  concat (dispatched aggressive_settings five_rows) = five_rows.
Proof.
  apply (script_constants_dispatch_every_row five_rows five_rows).
  rewrite (slices_cons _ five_rows) by (simpl; lia || done).
  rewrite take_ge by (simpl; lia). apply list_elem_of_here.
Defined.

Lemma List_filter_length {A} (f : A → bool) (l : list A) :
  length (List.filter f l) ≤ length l.
Proof. induction l as [|x l IH]; simpl; [lia|]. destruct (f x); simpl; lia. Qed.

(** X19: a sub-batch [run] hands to [process_chunk] has at most
    [BATCH_SIZE] rows, so [process_chunk] cuts its ids into at most one batch
    and sends at most one request. *)
Theorem one_request_per_sub_batch (cfg : settings) (chunk sub : list candidate) :
  0 < BATCH_SIZE cfg →
  sub ∈ dispatched cfg chunk →
  length sub ≤ BATCH_SIZE cfg ∧
  length (slices (BATCH_SIZE cfg)
            (List.filter (λ i, negb (i =? 0)%Z) (c_igdb_id <$> sub))) ≤ 1.
Proof.
  intros Hs Hin. unfold dispatched in Hin. apply subseteq_take in Hin.
  pose proof (slices_bounds (BATCH_SIZE cfg) chunk Hs) as Hb.
  rewrite Forall_forall in Hb. specialize (Hb sub Hin).
  split; [lia|]. rewrite slices_length.
  pose proof (List_filter_length (λ i, negb (i =? 0)%Z) (c_igdb_id <$> sub)) as Hf.
  rewrite length_fmap in Hf.
  apply Nat.lt_succ_r, Nat.Div0.div_lt_upper_bound. lia.
Qed.

Lemma one_request_per_sub_batch_witness :
  length [row 1; row 2] ≤ 2 ∧
  length (slices 2 (List.filter (λ i, negb (i =? 0)%Z)
                      (c_igdb_id <$> [row 1; row 2]))) ≤ 1.
Proof.
  apply (one_request_per_sub_batch tiny_settings five_rows [row 1; row 2]).
  - simpl. lia.
  - apply list_elem_of_here.
Defined.

End SliceFacts.

(** ** Orchestration: [process_chunk] and [run] *)

Section ProcessChunkFacts.

Local Open Scope nat_scope.

Variable cfg : settings.
Variable world : Type.
Variable post : list Z → world → result reply * world.
Variable database : db_call → world → result nat * world.
Variable localtime_date : Q → result date.

(** X20: when no row has an id other than 0, the empty list of rows
    included, [process_chunk] does nothing: no request, no update, and the
    rows are not counted as processed. *)
Theorem process_chunk_without_ids (games : list candidate) (σ : sync world) :
  Forall (λ g, c_igdb_id g = 0%Z) games →
  process_chunk cfg world post database localtime_date games σ = (Ok (), σ).
Proof.
  intros Hall. unfold process_chunk.
  assert (List.filter (λ i, negb (i =? 0)%Z) (c_igdb_id <$> games) = []) as ->;
    [|done].
  induction Hall as [|g games Hg _ IH]; [done|].
  rewrite fmap_cons. cbn [List.filter]. rewrite Hg. exact IH.
Qed.

Lemma slices_single {A} (size : nat) (l : list A) :
  0 < length l ≤ size → slices size l = [l].
Proof.
  intros Hl. rewrite slices_cons; [|lia|by destruct l; simpl in *; [lia|]].
  rewrite take_ge, drop_ge by lia. by rewrite slices_nil by lia.
Qed.

(** [process_chunk] on a sub-batch of [run]: one request for all the ids. *)
Lemma process_chunk_single (games : list candidate) (σ : sync world) :
  0 < BATCH_SIZE cfg → length games ≤ BATCH_SIZE cfg →
  requested_ids games ≠ [] →
  process_chunk cfg world post database localtime_date games σ
  = let '(r, σ1) := fetch_igdb_batch world post (requested_ids games) σ in
    match mapM (transform_record localtime_date) (records_of r) with
    | Raise e => (Raise e, σ1)
    | Ok [] => add_processed world (length games) σ1
    | Ok (t :: ts) =>
        bind world (bulk_update_database world database (t :: ts))
          (λ _, add_processed world (length games)) σ1
    end.
Proof.
  intros Hs Hlen Hids. unfold process_chunk. fold (requested_ids games).
  destruct (requested_ids games) as [|i ids] eqn:He; [done|].
  rewrite slices_single.
  2:{ pose proof (List_filter_length (λ i, negb (i =? 0)%Z) (c_igdb_id <$> games)).
      fold (requested_ids games) in *. rewrite He, length_fmap in *.
      simpl in *. lia. }
  cbn [fmap list_fmap gather]. unfold bind at 1.
  destruct (fetch_igdb_batch world post (i :: ids) σ) as [r σ1].
  unfold bind at 1, ret. cbn [fmap list_fmap concat]. rewrite app_nil_r.
  unfold bind at 1, lift.
  destruct (mapM (transform_record localtime_date) (records_of r)) as [[|t ts]|e];
    done.
Qed.

Lemma fetch_igdb_batch_success (ids : list Z) (σ : sync world)
    (json : result pyval) (w : world) :
  post ids (env σ) = (Ok (Reply 200 json), w) →
  fetch_igdb_batch world post ids σ
  = (json,
     mk_sync (stats_total σ) (stats_processed σ) (stats_updated σ)
       (stats_failed σ) (console σ) w).
Proof. intros Hpost. unfold fetch_igdb_batch, bind, call. by rewrite Hpost. Qed.

(** X21: one record on which the transform raises loses the whole
    sub-batch: [process_chunk] raises the exception of the transform before
    anything is written, and no row is counted as processed or updated. *)
Theorem bad_record_aborts_sub_batch (games : list candidate) (σ : sync world)
    (records : list pyval) (w : world) :
  0 < BATCH_SIZE cfg → length games ≤ BATCH_SIZE cfg →
  requested_ids games ≠ [] →
  post (requested_ids games) (env σ) = (Ok (Reply 200 (Ok (PList records))), w) →
  Exists (λ g, is_Ok (transform_record localtime_date g) = false) records →
  ∃ e, process_chunk cfg world post database localtime_date games σ
       = (Raise e,
          mk_sync (stats_total σ) (stats_processed σ) (stats_updated σ)
            (stats_failed σ) (console σ) w).
Proof.
  intros Hs Hlen Hids Hpost Hbad.
  rewrite process_chunk_single by done.
  rewrite (fetch_igdb_batch_success _ _ _ _ Hpost). cbn [records_of].
  destruct (mapM (transform_record localtime_date) records) as [ts|e] eqn:Hm;
    [|by exists e].
  exfalso. apply (f_equal is_Ok) in Hm. rewrite mapM_is_Ok in Hm. simpl in Hm.
  rewrite forallb_forall in Hm. apply Exists_exists in Hbad as (g & Hg & Hfalse).
  apply list_elem_of_In in Hg. specialize (Hm g Hg). congruence.
Qed.





Lemma fetch_without_records (ids : list Z) (σ : sync world) :
  (∀ ids w status json w',
     post ids w = (Ok (Reply status json), w') → status = 200%Z →
     records_of json = []) →
  ∃ r σ', fetch_igdb_batch world post ids σ = (r, σ') ∧
          records_of r = [] ∧ stats_updated σ' = stats_updated σ.
Proof.
  intros Hquiet. unfold fetch_igdb_batch, bind, call.
  destruct (post ids (env σ)) as [[[status json]|e] w] eqn:Hpost.
  - destruct (Z.eqb_spec status 200) as [H200|_].
    + unfold lift. eexists _, _. split; [reflexivity|].
      split; [by eapply Hquiet | done].
    + eexists _, _. split; [reflexivity|]. done.
  - eexists _, _. split; [reflexivity|]. done.
Qed.

Lemma gather_fetch_without_records (batches : list (list Z)) (σ : sync world) :
  (∀ ids w status json w',
     post ids w = (Ok (Reply status json), w') → status = 200%Z →
     records_of json = []) →
  ∃ rs σ', gather world (fetch_igdb_batch world post <$> batches) σ = (Ok rs, σ') ∧
           concat (records_of <$> rs) = [] ∧
           stats_updated σ' = stats_updated σ.
Proof.
  intros Hquiet. revert σ. induction batches as [|ids batches IH]; intros σ.
  - by exists [], σ.
  - cbn [fmap list_fmap gather].
    destruct (fetch_without_records ids σ Hquiet) as (r & σ1 & -> & Hr & Hu).
    destruct (IH σ1) as (rs & σ2 & Hg & Hrs & Hu2).
    exists (r :: rs), σ2. unfold bind. rewrite Hg.
    split; [done|]. split; [|congruence].
    cbn [fmap list_fmap concat]. by rewrite Hr, Hrs.
Qed.

(** X23: unless some reply has status 200 and a list with a record in it,
    [process_chunk] returns without calling the database, whatever the
    replies are otherwise: an exception of the transport, a status other
    than 200, a body that is no JSON or no list, an empty list. *)
Theorem nothing_written_without_records (games : list candidate) (σ : sync world) :
  (∀ ids w status json w',
     post ids w = (Ok (Reply status json), w') → status = 200%Z →
     records_of json = []) →
  ∃ σ', process_chunk cfg world post database localtime_date games σ
        = (Ok (), σ') ∧
        stats_updated σ' = stats_updated σ ∧
        ∀ other_database,
          process_chunk cfg world post other_database localtime_date games σ
          = (Ok (), σ').
Proof.
  intros Hquiet. unfold process_chunk.
  destruct (List.filter _ _) as [|i ids]; [by exists σ|].
  destruct (gather_fetch_without_records
              (slices (BATCH_SIZE cfg) (i :: ids)) σ Hquiet)
    as (rs & σ1 & Hg & Hrs & Hu).
  unfold bind at 1. rewrite Hg. unfold bind at 1, lift. rewrite Hrs.
  eexists. split; [reflexivity|]. split; [exact Hu|].
  intros other. unfold bind at 1. rewrite Hg. unfold bind at 1. by rewrite Hrs.
Qed.

End ProcessChunkFacts.

Section RunFacts.

Local Open Scope nat_scope.

Variable cfg : settings.
Variable world : Type.
Variable post : list Z → world → result reply * world.
Variable database : db_call → world → result nat * world.
Variable fetch_candidates : world → result (list candidate) * world.
Variable localtime_date : Q → result date.
Variable start_time : Q.
Variable now : world → Q.

Lemma advances_refl (σ : sync world) : advances 0 σ σ.
Proof. unfold advances. repeat split; lia. Qed.

Lemma advances_trans (n m : nat) (σ σ1 σ2 : sync world) :
  advances n σ σ1 → advances m σ1 σ2 → advances (n + m) σ σ2.
Proof.
  unfold advances. intros (? & ? & ? & ?) (? & ? & ? & ?).
  repeat split; try congruence; lia.
Qed.

Lemma advances_mono (n m : nat) (σ σ' : sync world) :
  n ≤ m → advances n σ σ' → advances m σ σ'.
Proof. unfold advances. intros ? (? & ? & ? & ?). repeat split; try done; lia. Qed.

Lemma bind_advances {A B} (n k : nat) (m : prog world A) (f : A → prog world B) :
  (∀ σ, advances n σ (m σ).2) → (∀ a σ, advances k σ (f a σ).2) →
  ∀ σ, advances (n + k) σ (bind world m f σ).2.
Proof.
  intros Hm Hf σ. unfold bind. specialize (Hm σ).
  destruct (m σ) as [[a|e] σ1]; simpl in *.
  - eapply advances_trans; [exact Hm | apply Hf].
  - eapply advances_mono; [|exact Hm]. lia.
Qed.

Lemma call_advances {A} (f : world → result A * world) (σ : sync world) :
  advances 0 σ (call world f σ).2.
Proof.
  unfold call. destruct (f (env σ)). unfold advances. simpl.
  repeat split; lia.
Qed.

Lemma print_advances (e : event) (σ : sync world) :
  is_progress e = false → advances 0 σ (print world e σ).2.
Proof.
  intros He. unfold advances, print. simpl. repeat split; try lia.
  rewrite List.filter_app. simpl. rewrite He. apply app_nil_r.
Qed.

Lemma fetch_advances (ids : list Z) (σ : sync world) :
  advances 0 σ (fetch_igdb_batch world post ids σ).2.
Proof.
  unfold fetch_igdb_batch.
  apply (bind_advances 0 0); [apply call_advances|].
  intros [status json] σ1. destruct (status =? 200)%Z.
  - apply advances_refl.
  - apply (bind_advances 0 0); [by intros; apply print_advances|].
    intros. apply advances_refl.
Qed.

(** The tasks [gather] runs add up. *)
Lemma gather_advances {X A} (weight : X → nat) (task : X → prog world A)
    (xs : list X) :
  (∀ x σ, advances (weight x) σ (task x σ).2) →
  ∀ σ, advances (sum_list (weight <$> xs)) σ (gather world (task <$> xs) σ).2.
Proof.
  intros Htask. induction xs as [|x xs IH]; intros σ.
  - apply advances_refl.
  - cbn [fmap list_fmap gather sum_list sum_list_with].
    specialize (Htask x σ). destruct (task x σ) as [r σ1]. simpl in Htask.
    eapply advances_trans; [exact Htask|].
    replace (sum_list_with id (weight <$> xs)) with (sum_list (weight <$> xs) + 0)
      by (unfold sum_list; lia).
    apply (bind_advances _ 0); [apply IH|]. intros. apply advances_refl.
Qed.

Lemma sum_list_zero {X} (xs : list X) : sum_list ((λ _, 0) <$> xs) = 0.
Proof.
  induction xs as [|x xs IH]; [done|].
  cbn [fmap list_fmap sum_list_with]. by rewrite IH.
Qed.

Lemma with_connection_advances {A} (n : nat) (body : prog world A) :
  (∀ σ, advances n σ (body σ).2) →
  ∀ σ, advances n σ (with_connection world database body σ).2.
Proof.
  intros Hbody. unfold with_connection.
  apply (bind_advances 0 n); [apply call_advances|].
  intros _ σ. specialize (Hbody σ). destruct (body σ) as [r σ1]. simpl in Hbody.
  pose proof (call_advances (database Release) σ1) as Hrel.
  destruct (call world (database Release) σ1) as [[a|e] σ2]; simpl in *;
    replace n with (n + 0) by lia; by eapply advances_trans.
Qed.

Lemma bulk_update_database_advances (games : list transformed) (σ : sync world) :
  advances 0 σ (bulk_update_database world database games σ).2.
Proof.
  revert σ. unfold bulk_update_database. apply with_connection_advances.
  apply (bind_advances 0 0); [apply call_advances|]. intros _.
  apply (bind_advances 0 0); [intros; apply advances_refl|]. intros rows.
  apply (bind_advances 0 0); [apply call_advances|]. intros _.
  apply (bind_advances 0 0); [apply call_advances|]. intros n.
  apply (bind_advances 0 0).
  { intros σ. unfold advances, add_updated. simpl. repeat split; lia. }
  intros _. apply (bind_advances 0 0); [apply call_advances|].
  intros. apply advances_refl.
Qed.

Lemma process_chunk_advances (games : list candidate) (σ : sync world) :
  advances (length games) σ
    (process_chunk cfg world post database localtime_date games σ).2.
Proof.
  unfold process_chunk. destruct (List.filter _ _) as [|i ids].
  { eapply advances_mono; [|apply advances_refl]. lia. }
  revert σ. apply (bind_advances 0 (length games)).
  { intros σ. rewrite <- (sum_list_zero (slices (BATCH_SIZE cfg) (i :: ids))).
    apply gather_advances. intros. apply fetch_advances. }
  intros rs. apply (bind_advances 0 (length games)).
  { intros. apply advances_refl. }
  intros all_games. apply (bind_advances 0 (length games)).
  - destruct all_games; [intros; apply advances_refl|].
    apply bulk_update_database_advances.
  - intros _ σ. unfold advances, add_processed. simpl. repeat split; lia.
Qed.

Lemma cycle_counts (chunk : list candidate) (σ : sync world) :
  0 < BATCH_SIZE cfg →
  ∃ σ', cycle cfg world post database localtime_date chunk σ = (Ok (), σ') ∧
        stats_total σ' = stats_total σ ∧
        stats_failed σ' = stats_failed σ ∧
        stats_processed σ ≤ stats_processed σ' ≤ stats_processed σ + length chunk ∧
        length (List.filter is_progress (console σ'))
        = S (length (List.filter is_progress (console σ))).
Proof.
  intros Hs. unfold cycle, bind at 1.
  pose proof (gather_advances length
                (process_chunk cfg world post database localtime_date)
                (dispatched cfg chunk) process_chunk_advances σ) as Hadv.
  destruct (gather_returns world
              (process_chunk cfg world post database localtime_date
                 <$> dispatched cfg chunk) σ) as (rs & σ1 & Hg & _).
  rewrite Hg in *. simpl in Hadv.
  destruct Hadv as (Ht & Hf & Hp & Hc).
  assert (sum_list (length <$> dispatched cfg chunk) ≤ length chunk) as Hsum.
  { rewrite <- length_concat. unfold dispatched.
    rewrite concat_take_slices by done. rewrite length_take. lia. }
  unfold bind, get_stats, print. cbn -[List.filter].
  eexists. split; [reflexivity|]. cbn -[List.filter].
  repeat split; try done; try lia.
  rewrite List.filter_app, length_app. simpl. rewrite Hc. lia.
Qed.

Lemma loop_counts (chunks : list (list candidate)) (σ : sync world) :
  0 < BATCH_SIZE cfg →
  ∃ σ', for_loop world chunks
          (cycle cfg world post database localtime_date) σ = (Ok (), σ') ∧
        stats_total σ' = stats_total σ ∧
        stats_failed σ' = stats_failed σ ∧
        stats_processed σ ≤ stats_processed σ'
          ≤ stats_processed σ + length (concat chunks) ∧
        length (List.filter is_progress (console σ'))
        = length (List.filter is_progress (console σ)) + length chunks.
Proof.
  intros Hs. revert σ. induction chunks as [|chunk chunks IH]; intros σ.
  - exists σ. simpl. repeat split; lia.
  - destruct (cycle_counts chunk σ Hs) as (σ1 & Hc & Ht & Hf & Hp & Hl).
    destruct (IH σ1) as (σ2 & Hloop & Ht2 & Hf2 & Hp2 & Hl2).
    exists σ2. cbn [for_loop]. unfold bind at 1. rewrite Hc.
    split; [exact Hloop|]. cbn [concat]. rewrite length_app. simpl.
    repeat split; try congruence; lia.
Qed.

(** The selection changes the world only. *)
Lemma select_candidates_frame (σ : sync world) :
  ∃ r w', select_candidates world database fetch_candidates σ
          = (r, mk_sync (stats_total σ) (stats_processed σ) (stats_updated σ)
                  (stats_failed σ) (console σ) w').
Proof.
  unfold select_candidates, with_connection, bind, call.
  destruct (database Acquire (env σ)) as [[a|e] w1]; [|by eexists _, _].
  cbn [env]. destruct (fetch_candidates w1) as [r w2]. cbn [env].
  destruct (database Release w2) as [[b|e] w3]; by eexists _, _.
Qed.

(** X24: [run] raises when the selection of the rows raises, and then before
    any request, with only the banner printed.  Otherwise it goes through
    every chunk, whatever the requests and the updates raise: the total is
    the number of selected rows, the rows counted as processed are no more
    than the total, the failure counter stays 0, and one progress line is
    printed for each chunk.  It then prints the summary and, when no time has
    elapsed on the clock, raises [ZeroDivisionError] instead of printing the
    rate. *)
Theorem run_outcome (w : world) :
  0 < BATCH_SIZE cfg → 0 < CHUNK_SIZE cfg →
  let run := run cfg world post database fetch_candidates localtime_date
               start_time now in
  let selection := select_candidates world database fetch_candidates
                     (mk_sync 0 0 0 0 [Banner] w) in
  (∀ e σ1, selection = (Raise e, σ1) →
     run (init_sync w) = (Raise e, σ1) ∧
     σ1 = mk_sync 0 0 0 0 [Banner] (env σ1)) ∧
  (∀ games σ1, selection = (Ok games, σ1) →
     ∃ r σ', run (init_sync w) = (r, σ') ∧
       stats_total σ' = length games ∧
       stats_processed σ' ≤ stats_total σ' ∧
       stats_failed σ' = 0 ∧
       length (List.filter is_progress (console σ'))
       = length (slices (CHUNK_SIZE cfg) games) ∧
       if Qeq_bool (now (env σ') - start_time) 0
       then r = Raise ZeroDivisionError ∧
            last (console σ') = Some (Complete (stats_updated σ'))
       else r = Ok () ∧
            ∃ lines, console σ' = (lines ++ [Complete (stats_updated σ'); Rate])%list).
Proof.
  intros Hb Hc run0 selection. subst run0 selection.
  destruct (select_candidates_frame (mk_sync 0 0 0 0 [Banner] w))
    as (r0 & w1 & Hsel). cbn [stats_total stats_processed stats_updated
                              stats_failed console] in Hsel.
  split.
  - intros e σ1 He. rewrite Hsel in He. injection He as -> <-.
    split; [|done]. unfold run, bind at 1, print at 1. cbn [init_sync].
    cbn -[select_candidates]. unfold bind at 1. by rewrite Hsel.
  - intros games σ1 He. rewrite Hsel in He. injection He as -> <-.
    unfold run, bind at 1, print at 1. cbn -[select_candidates for_loop slices].
    unfold bind at 1. rewrite Hsel.
    unfold bind at 1, set_total. unfold bind at 1, print at 1.
    unfold bind at 1.
    match goal with
    | |- context [for_loop world ?chunks ?body ?σ0] =>
        destruct (loop_counts chunks σ0 Hb) as (σ2 & Hloop & Ht & Hf & Hp & Hl)
    end.
    rewrite Hloop. unfold bind, elapsed_seconds, get_stats, print, lift.
    cbn -[List.filter Qeq_bool Qminus] in *.
    rewrite concat_slices in Hp by done.
    change (List.filter is_progress [Banner; Found (length games)])
      with (@nil event) in Hl.
    destruct (Qeq_bool (now (env σ2) - start_time) 0) eqn:Hzero;
      eexists _, _; (split; [reflexivity|]);
      cbn -[List.filter last Qeq_bool Qminus]; rewrite ?Hzero;
      (split; [done|]); (split; [lia|]); (split; [done|]); split.
    + rewrite List.filter_app, length_app, Hl. simpl. lia.
    + split; [done|]. apply last_snoc.
    + rewrite !List.filter_app, !length_app, Hl. simpl. lia.
    + split; [done|]. eexists. by rewrite <- app_assoc.
Qed.

End RunFacts.

(** *** Concrete runs *)

Lemma process_chunk_without_ids_witness :
  process_chunk tiny_settings nat api_down (database_updating 0) utc_date
    [unlinked_row; unlinked_row] fresh
  = (Ok (), fresh).
Proof.
  apply process_chunk_without_ids. repeat constructor.
Defined.

Lemma bad_record_aborts_sub_batch_witness :
  ∃ e, process_chunk tiny_settings nat
         (api_serving [PDict bare_game; PDict nameless_platform])
         (database_updating 2) utc_date [row 1; row 2] fresh
       = (Raise e, mk_sync 5 0 0 0 [Banner; Found 5] 1%nat).
Proof.
  apply (bad_record_aborts_sub_batch tiny_settings nat
           (api_serving [PDict bare_game; PDict nameless_platform])
           (database_updating 2) utc_date [row 1; row 2] fresh
           [PDict bare_game; PDict nameless_platform] 1%nat).
  - simpl. lia.
  - simpl. lia.
  - discriminate.
  - reflexivity.
  - apply Exists_cons_tl, Exists_cons_hd. vm_compute. reflexivity.
Defined.


Lemma nothing_written_without_records_witness :
  ∃ σ', process_chunk tiny_settings nat api_down (database_updating 2) utc_date
          five_rows fresh = (Ok (), σ') ∧
        stats_updated σ' = stats_updated fresh ∧
        ∀ other_database,
          process_chunk tiny_settings nat api_down other_database utc_date
            five_rows fresh = (Ok (), σ').
Proof.
  apply nothing_written_without_records.
  intros ids w status json w' Hpost H200. unfold api_down in Hpost.
  injection Hpost as <- _ _. discriminate.
Defined.

Lemma run_outcome_witness :
  (∃ r σ', run tiny_settings nat api_down (database_updating 0) select_five_rows
             utc_date 0 request_clock (init_sync 0%nat) = (r, σ') ∧
           stats_total σ' = 5%nat ∧
           (stats_processed σ' ≤ stats_total σ')%nat ∧
           stats_failed σ' = 0%nat ∧
           length (List.filter is_progress (console σ')) = 1%nat) ∧
  run tiny_settings nat api_down (database_updating 0) select_fails utc_date
    0 request_clock (init_sync 0%nat)
  = (Raise ClientError, mk_sync 0 0 0 0 [Banner] 0%nat).
Proof.
  split.
  - destruct (proj2 (run_outcome tiny_settings nat api_down (database_updating 0)
                       select_five_rows utc_date 0 request_clock 0%nat
                       ltac:(simpl; lia) ltac:(simpl; lia))
                five_rows (mk_sync 0 0 0 0 [Banner] 0%nat) eq_refl)
      as (r & σ' & Hrun & Htotal & Hprocessed & Hfailed & Hlines & _).
    exists r, σ'.
    exact (conj Hrun (conj Htotal (conj Hprocessed (conj Hfailed Hlines)))).
  - exact (proj1 (proj1 (run_outcome tiny_settings nat api_down (database_updating 0)
                    select_fails utc_date 0 request_clock 0%nat
                    ltac:(simpl; lia) ltac:(simpl; lia))
                    ClientError (mk_sync 0 0 0 0 [Banner] 0%nat) eq_refl)).
Defined.

(** ** Writer: the records for the temporary table *)

Lemma has_date_lookup (d : gmap string pyval) (k : string) (v : pyval) :
  d !! k = Some v → has_date v = true → has_date (PDict d) = true.
Proof.
  intros Hk Hv. rewrite <- (insert_delete_id d k v Hk). cbn [has_date].
  rewrite map_fold_insert_L.
  - by rewrite Hv.
  - intros j1 j2 z1 z2 y _ _ _.
    destruct (has_date z1), (has_date z2), y; done.
  - apply lookup_delete_eq.
Qed.

Lemma to_dict_release_date (t : transformed) :
  to_dict t !! "release_date" = Some (tr_release_date t).
Proof.
  unfold to_dict.
  destruct (tr_developer t), (tr_publisher t);
    rewrite ?lookup_insert_ne by done; reflexivity.
Qed.

Lemma copy_records_raises (games : list transformed) (t : transformed) :
  t ∈ games → json_dumps (PDict (to_dict t)) = Raise TypeError →
  copy_records games = Raise TypeError.
Proof.
  intros Hin Ht. unfold copy_records.
  induction games as [|g games IH]; [by apply elem_of_nil in Hin|].
  rewrite mapM_cons. cbn [mbind result_bind].
  destruct (json_dumps (PDict (to_dict g))) as [data|e] eqn:Hg.
  - apply elem_of_cons in Hin as [->|Hin]; [congruence|].
    cbn [mbind result_bind]. by rewrite (IH Hin).
  - unfold json_dumps in Hg. by destruct (has_date _); simplify_eq.
Qed.

(** X25: a game with a release date cannot be written: the transform puts a
    [date] object in the dictionary, [json.dumps] raises [TypeError] on it,
    and so does the list of records [bulk_update_database] builds, whatever
    other games are in the batch. *)
Theorem dated_game_not_serializable (localtime_date : Q → result date)
    (igdb_data : gmap string pyval) (ts : pyval) (t : transformed) :
  transform_game localtime_date igdb_data = Ok t →
  igdb_data !! "first_release_date" = Some ts → truthy ts = true →
  (∃ d, tr_release_date t = PDate d) ∧
  json_dumps (PDict (to_dict t)) = Raise TypeError ∧
  (∀ games, t ∈ games → copy_records games = Raise TypeError).
Proof.
  intros Ht Hts Htruthy.
  assert (∃ d, tr_release_date t = PDate d) as [d Hd].
  { apply transform_game_Ok in Ht as (_ & Hrel & _).
    unfold release_date_of, dict_get, dict_item in Hrel. rewrite Hts in Hrel.
    simpl in Hrel. rewrite Htruthy in Hrel. simpl in Hrel.
    destruct ts; try discriminate; apply fmap_Ok in Hrel as (d & _ & ->); eauto. }
  assert (json_dumps (PDict (to_dict t)) = Raise TypeError) as Hdump.
  { unfold json_dumps.
    rewrite (has_date_lookup (to_dict t) "release_date" (tr_release_date t)).
    - done.
    - apply to_dict_release_date.
    - by rewrite Hd. }
  split; [eauto|]. split; [exact Hdump|].
  intros games Hin. by eapply copy_records_raises.
Qed.

Lemma dated_game_not_serializable_witness :
  json_dumps (PDict (to_dict full_game_out)) = Raise TypeError ∧
  copy_records [bare_game_out; full_game_out] = Raise TypeError.
Proof.
  destruct (dated_game_not_serializable utc_date full_game (PInt 951782400)
              full_game_out) as (_ & Hdump & Hcopy).
  - vm_compute. reflexivity.
  - vm_compute. reflexivity.
  - reflexivity.
  - split; [exact Hdump|]. apply Hcopy.
    apply list_elem_of_further, list_elem_of_here.
Defined.

(** ** Configuration *)

Section ConfigurationFacts.

Local Open Scope nat_scope.

Lemma append_assoc (a b c : string) : (a +:+ b) +:+ c = a +:+ b +:+ c.
Proof.
  induction a as [|x a IH]; [done|].
  change ((String x a +:+ b) +:+ c) with (String x ((a +:+ b) +:+ c)).
  change (String x a +:+ b +:+ c) with (String x (a +:+ b +:+ c)).
  by rewrite IH.
Qed.

Lemma span_nodot_run (ref rest : string) :
  free_of "." ref = true →
  span_nodot (ref +:+ String "." rest) = (ref, String "." rest).
Proof.
  intros Hfree. induction ref as [|c ref IH]; [done|].
  cbn [free_of] in Hfree. apply andb_prop in Hfree as [Hc Hfree].
  change (String c ref +:+ String "." rest)
    with (String c (ref +:+ String "." rest)).
  cbn [span_nodot]. rewrite Ascii.eqb_sym. apply negb_true_iff in Hc.
  rewrite Hc, (IH Hfree). done.
Qed.

Lemma span_nodot_split (s run rest : string) :
  span_nodot s = (run, rest) → s = run +:+ rest ∧ free_of "." run = true.
Proof.
  revert run rest. induction s as [|c s IH]; intros run rest H.
  - by injection H as <- <-.
  - cbn [span_nodot] in H. destruct (Ascii.eqb c ".") eqn:Hc.
    + by injection H as <- <-.
    + destruct (span_nodot s) as [run' rest']. injection H as <- <-.
      destruct (IH _ _ eq_refl) as [-> Hfree]. split; [done|].
      cbn [free_of]. by rewrite Ascii.eqb_sym, Hc, Hfree.
Qed.

(** X26: for a project reference that is not empty and has no dot, the URL
    [https://<ref>.supabase.co], with whatever follows it, gives the host
    [<ref>.supabase.co]. *)
Theorem DB_HOST_of_project_url (ref rest : string) :
  ref ≠ "" → free_of "." ref = true →
  DB_HOST ("https://" +:+ ref +:+ ".supabase.co" +:+ rest)
  = Some (ref +:+ ".supabase.co").
Proof.
  intros Hne Hfree. unfold DB_HOST.
  assert (match_project ("https://" +:+ ref +:+ ".supabase.co" +:+ rest)
          = Some ref) as Hm.
  { unfold match_project.
    change ("https://" +:+ ref +:+ ".supabase.co" +:+ rest)
      with ("https://" +:+ (ref +:+ String "." ("supabase.co" +:+ rest))).
    rewrite prefix_append.
    change (string_drop 8 ("https://" +:+ ?x)) with x.
    rewrite (span_nodot_run _ _ Hfree).
    destruct (String.eqb_spec ref ""); [done|]. cbn [negb andb].
    change (String "." ("supabase.co" +:+ rest)) with (".supabase.co" +:+ rest).
    by rewrite prefix_append. }
  destruct ("https://" +:+ ref +:+ ".supabase.co" +:+ rest) eqn:E;
    cbn [search_project]; by rewrite Hm.
Qed.

Lemma DB_HOST_of_project_url_witness :
  DB_HOST "https://abcdefgh.supabase.co/rest/v1"
  = Some "abcdefgh.supabase.co".
Proof.
  apply (DB_HOST_of_project_url "abcdefgh" "/rest/v1"); [discriminate | reflexivity].
Defined.

Lemma match_project_Some (s ref : string) :
  match_project s = Some ref →
  ref ≠ "" ∧ free_of "." ref = true ∧
  ∃ rest, s = "https://" +:+ ref +:+ ".supabase.co" +:+ rest.
Proof.
  unfold match_project. destruct (String.prefix "https://" s) eqn:Hp; [|done].
  apply prefix_split in Hp. cbn [String.length] in Hp.
  destruct (span_nodot (string_drop 8 s)) as [run rest] eqn:Hspan.
  destruct (String.eqb_spec run ""); [done|]. cbn [negb andb].
  destruct (String.prefix ".supabase.co" rest) eqn:Hp2; [|done].
  intros [= <-]. apply span_nodot_split in Hspan as [Hs Hfree].
  apply prefix_split in Hp2. cbn [String.length] in Hp2.
  split; [done|]. split; [done|].
  exists (string_drop 12 rest). rewrite Hp at 1. rewrite Hs. by rewrite Hp2 at 1.
Qed.

(** X27: a host the search finds comes from the URL: it is a label without
    a dot, not empty, followed by [.supabase.co], and the URL contains it
    right after [https://].  A URL that does not contain [https://] gives no
    host. *)
Theorem DB_HOST_sound (url : string) :
  (∀ host, DB_HOST url = Some host →
     ∃ ref, host = ref +:+ ".supabase.co" ∧ ref ≠ "" ∧ free_of "." ref = true ∧
            occurs ("https://" +:+ host) url = true) ∧
  (occurs "https://" url = false → DB_HOST url = None).
Proof.
  split.
  - intros host. unfold DB_HOST.
    destruct (search_project url) as [ref|] eqn:Hs; [|done].
    intros [= <-]. exists ref.
    enough (ref ≠ "" ∧ free_of "." ref = true ∧
            occurs ("https://" +:+ ref +:+ ".supabase.co") url = true)
      as (Hne & Hfree & Hocc) by done.
    induction url as [|c url IH].
    + cbn [search_project] in Hs.
      destruct (match_project "") eqn:Hm; [|done]. injection Hs as ->.
      apply match_project_Some in Hm as (_ & _ & rest & Hrest). done.
    + cbn [search_project] in Hs.
      destruct (match_project (String c url)) eqn:Hm.
      * injection Hs as ->.
        apply match_project_Some in Hm as (Hne & Hfree & rest & Hrest).
        split; [done|]. split; [done|]. cbn [occurs].
        assert (String c url
                = ("https://" +:+ ref +:+ ".supabase.co") +:+ rest) as Hsplit
          by (by rewrite Hrest, !append_assoc).
        by rewrite Hsplit, prefix_append.
      * destruct (IH Hs) as (Hne & Hfree & Hocc).
        split; [done|]. split; [done|]. cbn [occurs]. rewrite Hocc.
        apply orb_true_r.
  - intros Hocc. unfold DB_HOST.
    enough (search_project url = None) as -> by done.
    induction url as [|c url IH].
    + done.
    + cbn [occurs] in Hocc. apply orb_false_iff in Hocc as [Hp Hocc].
      cbn [search_project]. unfold match_project at 1. rewrite Hp. by apply IH.
Qed.

Lemma DB_HOST_sound_witness :
  DB_HOST "http://localhost:54321" = None.
Proof. apply (proj2 (DB_HOST_sound "http://localhost:54321")). reflexivity. Defined.

End ConfigurationFacts.
